(** * Pond: ripple simulation, water compositor, leaves and level animation

  A shallow embedding of [src/Pond.tsx] (the version with [RippleSim],
  [LeafSystem] and [onDrained]).

  Numbers.  TypeScript [number]s and GLSL [float]s are modelled as the
  real numbers [R] of the Standard Library: the arithmetic is exact, there
  is no rounding, no infinity and no NaN.  Render-target texels keep only
  the red channel, the one the shaders read and write. *)

From Stdlib Require Import Reals Lra Lia ZArith List Bool Psatz.
From Stdlib Require Import Permutation.
From Stdlib Require String.
Import ListNotations.

Open Scope R_scope.

(* ================================================================== *)
(** * GLSL and three.js built-ins used by the shaders *)
(* ================================================================== *)

Module Glsl.

Definition vec2 : Type := (R * R)%type.
Definition vec3 : Type := (R * R * R)%type.

(** [clamp(x, lo, hi)] is [min(max(x, lo), hi)]. *)
Definition clamp (x lo hi : R) : R := Rmin (Rmax x lo) hi.

(** [mix(a, b, t)] is [a * (1 - t) + b * t]. *)
Definition mix (a b t : R) : R := a * (1 - t) + b * t.

(** [smoothstep(e0, e1, x)]: Hermite interpolation of the clamped ratio.
    The vignette of the water shader calls it with [e0 > e1]; the formula
    is the one implementations evaluate there too. *)
Definition smoothstep (e0 e1 x : R) : R :=
  let t := clamp ((x - e0) / (e1 - e0)) 0 1 in
  t * t * (3 - 2 * t).

Definition length (v : vec2) : R := sqrt (fst v * fst v + snd v * snd v).

Definition distance (p q : vec2) : R :=
  length (fst p - fst q, snd p - snd q).

(** [THREE.MathUtils.lerp(x, y, t)] and [THREE.MathUtils.clamp]. *)
Definition lerp (x y t : R) : R := (1 - t) * x + t * y.
Definition clampJS (v lo hi : R) : R := Rmax lo (Rmin hi v).

(** A square render-target texture of side [N]: the red channel of the
    texel in column [i], row [j]. *)
Definition texture : Type := Z -> Z -> R.

(** Clamp-to-edge wrapping (the three.js default): an index outside
    [0 .. N-1] reads the nearest edge texel. *)
Definition edge (N k : Z) : Z := Z.max 0 (Z.min (N - 1) k).

Definition texelFetch (N : Z) (t : texture) (i j : Z) : R :=
  t (edge N i) (edge N j).

(** [texture2D] with [LinearFilter] (the filter the render targets are
    created with): bilinear interpolation of the four texels around
    the sample point, texel centres at [(k + 1/2) / N]. *)
Definition texture2D (N : Z) (t : texture) (uv : vec2) : R :=
  let x := fst uv * IZR N - 1 / 2 in
  let y := snd uv * IZR N - 1 / 2 in
  let i0 := Int_part x in
  let j0 := Int_part y in
  let fx := x - IZR i0 in
  let fy := y - IZR j0 in
  (1 - fx) * (1 - fy) * texelFetch N t i0 j0
  + fx * (1 - fy) * texelFetch N t (i0 + 1) j0
  + (1 - fx) * fy * texelFetch N t i0 (j0 + 1)
  + fx * fy * texelFetch N t (i0 + 1) (j0 + 1).

(** The [vUv] varying of the fragment at pixel [(i, j)] of a full-screen
    quad rendered into an [N] x [N] target: the pixel centre. *)
Definition pixelUv (N i j : Z) : vec2 :=
  ((IZR i + 1 / 2) / IZR N, (IZR j + 1 / 2) / IZR N).

End Glsl.

(* ================================================================== *)
(** * RippleSim: the wave-equation ping-pong simulation *)
(* ================================================================== *)

Module RippleSim.
Import Glsl.

(** ** The fragment shader *)

Definition decodeH (r : R) : R := r * 2 - 1.
Definition encodeH (h : R) : R := h * 0.5 + 0.5.

Definition sampleH (N : Z) (tex : texture) (uv : vec2) : R :=
  decodeH (texture2D N tex uv).

Record uniforms : Type := mkUniforms {
  uPrev : texture;
  uPrevPrev : texture;
  uTexel : vec2;
  uMouse : vec2;
  uImpulse : R;
  uImpulseRadius : R;
  uC : R;
  uDamping : R;
  uStrength : R
}.

(** The value of [next] at the end of [main], after the clamp. *)
Definition mainNext (N : Z) (u : uniforms) (vUv : vec2) : R :=
  let h := sampleH N (uPrev u) vUv in
  let h1 := sampleH N (uPrevPrev u) vUv in
  let l := 0 in
  let l := l + sampleH N (uPrev u) (fst vUv + fst (uTexel u), snd vUv + 0) in
  let l := l + sampleH N (uPrev u) (fst vUv + - fst (uTexel u), snd vUv + 0) in
  let l := l + sampleH N (uPrev u) (fst vUv + 0, snd vUv + snd (uTexel u)) in
  let l := l + sampleH N (uPrev u) (fst vUv + 0, snd vUv + - snd (uTexel u)) in
  let l := l - 4 * h in
  let next := (2 * h - h1) + (uC u * uC u) * l in
  let vel := h - h1 in
  let next := next - uDamping u * vel in
  let d := distance vUv (uMouse u) in
  let splat := exp (- (d * d) / (uImpulseRadius u * uImpulseRadius u)) in
  let next := next + splat * uImpulse u * uStrength u in
  clamp next (-1) 1.

(** The red channel of [gl_FragColor]. *)
Definition main (N : Z) (u : uniforms) (vUv : vec2) : R :=
  encodeH (mainNext N u vUv).

(** ** The component state *)

(** [rts] gives the contents of the three render targets [rtA], [rtB],
    [rtC] by their position in the [rts] array.  [rippleTex] is what
    [onTexture] delivered last: [None] for [null], [Some k] for the
    texture of [rts[k]] (a reference: it shows whatever target [k] holds). *)
Record state : Type := mkState {
  rts : nat -> texture;
  prevIdx : nat;
  prevPrevIdx : nat;
  writeIdx : nat;
  mouseUv : vec2;
  lastMouse : vec2;
  lastT : R;
  impulse : R;
  impulseRadius : R;
  rippleTex : option nat
}.

Definition baseRadius : R := 0.02.

Definition setTarget (f : nat -> texture) (k : nat) (t : texture)
  : nat -> texture :=
  fun k' => if Nat.eqb k' k then t else f k'.

(** The init effect: every target is cleared to the colour (0.5, 0, 0). *)
Definition clearColor : texture := fun _ _ => 0.5.

Definition initClear (f : nat -> texture) : nat -> texture :=
  fold_left (fun g k => setTarget g k clearColor) [0%nat; 1%nat; 2%nat] f.

(** The state once the component is mounted and its effects have run;
    [garbage] is what the freshly allocated targets held and [t0] the
    value of [performance.now()] at mount. *)
Definition init (garbage : nat -> texture) (t0 : R) : state :=
  {| rts := initClear garbage;
     prevIdx := 0; prevPrevIdx := 1; writeIdx := 2;
     mouseUv := (-10, -10);
     lastMouse := (0, 0);
     lastT := t0;
     impulse := 0;
     impulseRadius := baseRadius;
     rippleTex := None |}.

Section Component.

(** The props [strength] and [simSize]. *)
Variable strength : R.
Variable simSize : Z.

Definition material (s : state) : uniforms :=
  {| uPrev := rts s (prevIdx s);
     uPrevPrev := rts s (prevPrevIdx s);
     uTexel := (1 / IZR simSize, 1 / IZR simSize);
     uMouse := mouseUv s;
     uImpulse := impulse s;
     uImpulseRadius := impulseRadius s;
     uC := 0.35;
     uDamping := 0.020;
     uStrength := strength |}.

(** [gl.render(simScene, simCam)] into the write target: the fragment
    shader runs once per pixel of the full-screen quad. *)
Definition render (s : state) : texture :=
  fun i j => main simSize (material s) (pixelUv simSize i j).

(** The [useFrame] callback; it does not use the frame's [dt]. *)
Definition useFrame (enabled : bool) (s : state) : state :=
  if negb enabled then
    {| rts := rts s;
       prevIdx := prevIdx s; prevPrevIdx := prevPrevIdx s;
       writeIdx := writeIdx s;
       mouseUv := mouseUv s; lastMouse := lastMouse s; lastT := lastT s;
       impulse := impulse s; impulseRadius := impulseRadius s;
       rippleTex := None |}
  else
    let written := render s in
    let oldPrevIdx := prevIdx s in
    let oldPrevPrevIdx := prevPrevIdx s in
    let newPrevIdx := writeIdx s in
    {| rts := setTarget (rts s) (writeIdx s) written;
       prevIdx := newPrevIdx;
       prevPrevIdx := oldPrevIdx;
       writeIdx := oldPrevPrevIdx;
       mouseUv := mouseUv s; lastMouse := lastMouse s; lastT := lastT s;
       impulse := impulse s * 0.85;
       impulseRadius := lerp (impulseRadius s) baseRadius 0.18;
       rippleTex := Some newPrevIdx |}.

(** ** Pointer handlers *)

Record pointerEvent : Type := mkPointerEvent {
  clientX : R; clientY : R;
  rectLeft : R; rectTop : R; rectWidth : R; rectHeight : R
}.

Definition getUvFromEvent (e : pointerEvent) : vec2 :=
  let x := (clientX e - rectLeft e) / rectWidth e in
  let y := 1 - (clientY e - rectTop e) / rectHeight e in
  (clampJS x 0 1, clampJS y 0 1).

Definition onMove (enabled : bool) (e : pointerEvent) (now : R)
           (s : state) : state :=
  if negb enabled then s
  else
    let uv := getUvFromEvent e in
    let dt := Rmax 1 (now - lastT s) in
    let dx := fst uv - fst (lastMouse s) in
    let dy := snd uv - snd (lastMouse s) in
    let speed := sqrt (dx * dx + dy * dy) / (dt / 1000) in
    {| rts := rts s;
       prevIdx := prevIdx s; prevPrevIdx := prevPrevIdx s;
       writeIdx := writeIdx s;
       mouseUv := uv; lastMouse := uv; lastT := now;
       impulse := Rmin 1 (speed * 0.35);
       impulseRadius := impulseRadius s;
       rippleTex := rippleTex s |}.

Definition onDown (enabled : bool) (e : pointerEvent) (now : R)
           (s : state) : state :=
  if negb enabled then s
  else
    let uv := getUvFromEvent e in
    {| rts := rts s;
       prevIdx := prevIdx s; prevPrevIdx := prevPrevIdx s;
       writeIdx := writeIdx s;
       mouseUv := uv; lastMouse := uv; lastT := now;
       impulse := Rmax (impulse s) 1.25;
       impulseRadius := 0.04;
       rippleTex := rippleTex s |}.

(** What can happen to a mounted simulator, with the value of the
    [enabled] prop at that moment. *)
Inductive event : Type :=
| Frame (enabled : bool)
| PointerMove (enabled : bool) (e : pointerEvent) (now : R)
| PointerDown (enabled : bool) (e : pointerEvent) (now : R).

Definition step (s : state) (ev : event) : state :=
  match ev with
  | Frame en => useFrame en s
  | PointerMove en e now => onMove en e now s
  | PointerDown en e now => onDown en e now s
  end.

Definition run (s : state) (evs : list event) : state :=
  fold_left step evs s.

Inductive reachable : state -> Prop :=
| reach_init : forall garbage t0, reachable (init garbage t0)
| reach_step : forall s ev, reachable s -> reachable (step s ev).

(** ** Readings of the height field *)

(** The height stored in cell [(i, j)] of a texture. *)
Definition height (t : texture) (i j : Z) : R := decodeH (t i j).

Definition inGrid (i j : Z) : Prop :=
  (0 <= i < simSize)%Z /\ (0 <= j < simSize)%Z.

(** The 4-neighbour discrete Laplacian of a height field, neighbours
    beyond the border read at the border. *)
Definition laplacian (t : texture) (i j : Z) : R :=
  height t (edge simSize (i + 1)) (edge simSize j)
  + height t (edge simSize (i - 1)) (edge simSize j)
  + height t (edge simSize i) (edge simSize (j + 1))
  + height t (edge simSize i) (edge simSize (j - 1))
  - 4 * height t i j.

Definition gaussian (d radius : R) : R :=
  exp (- (d * d) / (radius * radius)).

(** The cells of the grid, and the total energy of a height field: the
    sum over all cells of the squared height. *)
Definition indices : list Z := map Z.of_nat (seq 0 (Z.to_nat simSize)).

Definition cells : list (Z * Z) := list_prod indices indices.

Definition sumR (l : list R) : R := fold_right Rplus 0 l.

Definition energy (t : texture) : R :=
  sumR (map (fun c => height t (fst c) (snd c) * height t (fst c) (snd c))
            cells).

(** The height field the simulator shows: the target in the role
    [current] (index [prevIdx]), and the one before it. *)
Definition current (s : state) : texture := rts s (prevIdx s).
Definition previous (s : state) : texture := rts s (prevPrevIdx s).

(** [n] enabled frames in a row. *)
Fixpoint ticks (n : nat) (s : state) : state :=
  match n with
  | O => s
  | S n' => ticks n' (useFrame true s)
  end.

(** Every cell of every target holds a height in [-1, 1]. *)
Definition bounded (s : state) : Prop :=
  forall k i j, (k < 3)%nat -> inGrid i j ->
    -1 <= height (rts s k) i j <= 1.

(** The three role indices form a permutation of 0, 1, 2. *)
Definition rolesOk (s : state) : Prop :=
  Permutation [prevIdx s; prevPrevIdx s; writeIdx s] [0; 1; 2]%nat.

(** A surface at rest at a uniform height [c], without impulse. *)
Definition resting (c : R) (s : state) : Prop :=
  rolesOk s /\ impulse s = 0
  /\ forall k i j, (k < 3)%nat -> inGrid i j -> height (rts s k) i j = c.

End Component.

(** ** A concrete run *)

(** The pond's simulator ([strength = 0.9], [simSize = 512]) right after
    mount, its targets having held zeros when allocated. *)
Definition pond0 : state := init (fun _ _ _ => 0) 0.

(** The pointer at the middle of a 100 x 100 canvas. *)
Definition middle : pointerEvent :=
  {| clientX := 50; clientY := 50;
     rectLeft := 0; rectTop := 0; rectWidth := 100; rectHeight := 100 |}.

(** The pointer arrives at the middle, a frame is rendered, and the
    pointer reports the same position again. *)
Definition stroke : list event :=
  [PointerMove true middle 16; Frame true; PointerMove true middle 32].

(** A surface at rest at height 0.1: every texel of the three targets
    stores 0.55, and there is no impulse. *)
Definition raised : state :=
  {| rts := fun _ _ _ => 0.55;
     prevIdx := 0; prevPrevIdx := 1; writeIdx := 2;
     mouseUv := (-10, -10);
     lastMouse := (0, 0);
     lastT := 0;
     impulse := 0;
     impulseRadius := baseRadius;
     rippleTex := None |}.

End RippleSim.


(* ================================================================== *)
(** * PondScene: the level animation *)
(* ================================================================== *)

Module PondScene.

Inductive PondPhase : Type := off | filling | on | draining.

Definition PondPhase_eqb (a b : PondPhase) : bool :=
  match a, b with
  | off, off | filling, filling | on, on | draining, draining => true
  | _, _ => false
  end.

Definition callback_eqb (a b : option nat) : bool :=
  match a, b with
  | None, None => true
  | Some x, Some y => Nat.eqb x y
  | _, _ => false
  end.

Definition easeInOutCubic (t : R) : R :=
  if Rlt_dec t 0.5 then 4 * t * t * t else 1 - (-2 * t + 2) ^ 3 / 2.

(** A mounted [PondScene].  [phase] and [onDrained] are the props of the
    last render ([onDrained] is the identity of the function passed, if
    any); [level] is the React state and [levelRef] the ref that follows
    it; [from], [to], [dur], [start] are the constants captured by the
    running level effect, and [raf] tells whether that effect has an
    animation frame requested. *)
Record scene : Type := mkScene {
  phase : PondPhase;
  onDrained : option nat;
  level : R;
  levelRef : R;
  from : R;
  to : R;
  dur : R;
  start : R;
  raf : bool
}.

Definition target (ph : PondPhase) : R :=
  match ph with draining => 0 | _ => 1 end.

Definition duration (ph : PondPhase) : R :=
  match ph with draining => 500 | _ => 650 end.

(** First render of [PondScene]: the state and the ref are initialised,
    then the level effect runs at time [now] = [performance.now()] and
    captures [from = levelRef.current]. *)
Definition mount (ph : PondPhase) (cb : option nat) (now : R) : scene :=
  let lv := match ph with on => 1 | _ => 0 end in
  let ref := lv in
  {| phase := ph; onDrained := cb; level := lv; levelRef := ref;
     from := ref; to := target ph; dur := duration ph; start := now;
     raf := true |}.

(** A render with new props.  When [phase] or [onDrained] changed, the
    level effect is cleaned up (its frame request cancelled) and run
    again, capturing [from = levelRef.current]; otherwise the running
    effect is left alone. *)
Definition setProps (ph : PondPhase) (cb : option nat) (now : R)
           (s : scene) : scene :=
  if PondPhase_eqb ph (phase s) && callback_eqb cb (onDrained s) then s
  else
    {| phase := ph; onDrained := cb;
       level := level s; levelRef := levelRef s;
       from := levelRef s; to := target ph; dur := duration ph;
       start := now; raf := true |}.

(** The [tick] closure of the running effect, called with the frame time
    [now]; the result carries the callbacks invoked.  The state is the
    one after the render that [setLevel] causes, whose effect on [level]
    stores the new level in [levelRef]. *)
Definition tick (now : R) (s : scene) : scene * list nat :=
  let p := Rmin 1 ((now - start s) / dur s) in
  let e := easeInOutCubic p in
  let v := from s + (to s - from s) * e in
  if Rlt_dec p 1 then
    ({| phase := phase s; onDrained := onDrained s;
        level := v; levelRef := v;
        from := from s; to := to s; dur := dur s; start := start s;
        raf := true |}, [])
  else
    ({| phase := phase s; onDrained := onDrained s;
        level := to s; levelRef := to s;
        from := from s; to := to s; dur := dur s; start := start s;
        raf := false |},
     if PondPhase_eqb (phase s) draining then
       if Req_dec_T (to s) 0 then
         match onDrained s with Some f => [f] | None => [] end
       else []
     else []).

(** What happens to the [Pond] component: the host renders it with some
    props, or the browser runs the animation-frame callbacks. *)
Inductive event : Type :=
| Render (ph : PondPhase) (cb : option nat) (now : R)
| AnimationFrame (now : R).

(** The component is [None] while [phase] is [off] ([Pond] returns null
    and [PondScene] is unmounted, which cancels the frame request). *)
Definition step (st : option scene) (ev : event)
  : option scene * list nat :=
  match ev, st with
  | Render off _ _, _ => (None, [])
  | Render ph cb now, None => (Some (mount ph cb now), [])
  | Render ph cb now, Some s => (Some (setProps ph cb now s), [])
  | AnimationFrame now, None => (None, [])
  | AnimationFrame now, Some s =>
      if raf s then (Some (fst (tick now s)), snd (tick now s))
      else (Some s, [])
  end.

(** A run: the final state and all the callbacks invoked, in order. *)
Fixpoint run (st : option scene) (evs : list event)
  : option scene * list nat :=
  match evs with
  | [] => (st, [])
  | ev :: evs' =>
      let (st1, c1) := step st ev in
      let (st2, c2) := run st1 evs' in
      (st2, c1 ++ c2)
  end.

Inductive reachable : option scene -> Prop :=
| reach_unmounted : reachable None
| reach_step : forall st ev, reachable st -> reachable (fst (step st ev)).

(** The frames of one run of the level effect: animation frames only. *)
Definition frames (ts : list R) : list event := map AnimationFrame ts.

(** An event that leaves the props as they are: an animation frame, or a
    render with the same [phase] and the same [onDrained]. *)
Definition keepsProps (s : scene) (ev : event) : Prop :=
  match ev with
  | AnimationFrame _ => True
  | Render ph cb _ => ph = phase s /\ cb = onDrained s
  end.

(** The times of the animation frames among some events. *)
Fixpoint frameTimes (evs : list event) : list R :=
  match evs with
  | [] => []
  | AnimationFrame t :: evs' => t :: frameTimes evs'
  | Render _ _ _ :: evs' => frameTimes evs'
  end.

(** What every mounted scene satisfies: the ref follows the level, and
    the running effect was started for the current phase, which is not
    [off]. *)
Definition wf (s : scene) : Prop :=
  levelRef s = level s
  /\ to s = target (phase s)
  /\ dur s = duration (phase s)
  /\ phase s <> off.

(** The callbacks a completing tick invokes. *)
Definition completion (s : scene) : list nat :=
  if PondPhase_eqb (phase s) draining then
    if Req_dec_T (to s) 0 then
      match onDrained s with Some f => [f] | None => [] end
    else []
  else [].

(** The eased progress at time [t] of a transition started at [t0] that
    lasts [d] milliseconds: the [e] of [tick]. *)
Definition eased (t0 d t : R) : R :=
  easeInOutCubic (Rmin 1 ((t - t0) / d)).

(** ** Concrete scenes *)

(** Mounted in phase [filling] at time 0 and animated up to the middle
    of the transition. *)
Definition halfFilled : scene := fst (tick 325 (mount filling (Some 7%nat) 0)).

(** Mounted in phase [on], then switched to [draining] at time 1000. *)
Definition startedDraining : scene :=
  setProps draining (Some 7%nat) 1000 (mount on (Some 7%nat) 0).

End PondScene.

(* ================================================================== *)
(** * LeafSystem: the floating leaves *)
(* ================================================================== *)

Module LeafSystem.
Import Glsl.

Record Leaf : Type := mkLeaf {
  id : nat;
  x : R;
  y : R;
  s : R;
  r : R;
  vx : R;
  wobble : R
}.

(** The refs of the component, the [count] of the instanced mesh, and the
    number of [Math.random()] calls made so far. *)
Record state : Type := mkState {
  leaves : list Leaf;
  idRef : nat;
  nextSpawnAt : R;
  meshCount : nat;
  draws : nat
}.

Section Component.

(** The props [maxLeaves] and [spawnEvery], and the values the successive
    calls of [Math.random()] return. *)
Variable maxLeaves : nat.
Variable spawnEvery : R * R.
Variable random : nat -> R.

(** The mesh is created with [count = maxLeaves]. *)
Definition init : state :=
  {| leaves := []; idRef := 1; nextSpawnAt := 0;
     meshCount := maxLeaves; draws := 0 |}.

(** The effect on [enabled]: a reset when the layer is disabled. *)
Definition enabledEffect (enabled : bool) (st : state) : state :=
  if enabled then st
  else {| leaves := []; idRef := idRef st; nextSpawnAt := 0;
          meshCount := meshCount st; draws := draws st |}.

Definition tooClose (w : R) (l : Leaf) : bool :=
  if Rlt_dec (x l) (- w / 2 + 1.6) then true else false.

(** [spawnLeaf], for a viewport of [w] by [h]; [Math.floor(maxLeaves *
    0.7)] is the integer quotient of [7 * maxLeaves] by 10.  The five
    random numbers are drawn in the order of the source: [s], [y], [vx],
    [r], [wobble]. *)
Definition spawnLeaf (w h : R) (st : state) : state :=
  let margin := 0.65 in
  if (Nat.div (maxLeaves * 7) 10 <=? Datatypes.length (leaves st))%nat
     && existsb (tooClose w) (leaves st)
  then st
  else
    let n := draws st in
    let s0 := lerp 0.13 0.26 (random n) in
    let y0 := lerp (- h / 2 + 0.6) (h / 2 - 0.6) (random (n + 1)) in
    let vx0 := lerp 0.10 0.22 (random (n + 2)) in
    {| leaves := leaves st ++
         [ {| id := idRef st;
              x := - w / 2 - margin;
              y := y0;
              s := s0;
              r := lerp (- PI) PI (random (n + 3));
              vx := vx0;
              wobble := random (n + 4) * PI * 2 |} ];
       idRef := S (idRef st);
       nextSpawnAt := nextSpawnAt st;
       meshCount := meshCount st;
       draws := n + 5 |}.

(** The first block of [useFrame]: on the first frame after a reset the
    timer is armed with a short delay and a leaf is forced if there is
    none. *)
Definition firstSpawn (now w h : R) (st : state) : state :=
  if Req_dec_T (nextSpawnAt st) 0 then
    let firstDelay := lerp 0.2 0.8 (random (draws st)) in
    let st1 := {| leaves := leaves st; idRef := idRef st;
                  nextSpawnAt := now + firstDelay;
                  meshCount := meshCount st; draws := S (draws st) |} in
    if (Datatypes.length (leaves st1) =? 0)%nat then spawnLeaf w h st1
    else st1
  else st.

(** The second block: when the timer is due and the population is under
    the cap, [spawnLeaf] is called and the timer armed again. *)
Definition timedSpawn (now w h : R) (st : state) : state :=
  if Rle_dec (nextSpawnAt st) now then
    if (Datatypes.length (leaves st) <? maxLeaves)%nat then
      let st1 := spawnLeaf w h st in
      {| leaves := leaves st1; idRef := idRef st1;
         nextSpawnAt :=
           now + lerp (fst spawnEvery) (snd spawnEvery) (random (draws st1));
         meshCount := meshCount st1; draws := S (draws st1) |}
    else st
  else st.

(** Move and bob, then cull what left the screen. *)
Definition move (now dt : R) (l : Leaf) : Leaf :=
  {| id := id l;
     x := x l + vx l * dt;
     y := y l + sin (now * 0.35 + wobble l) * 0.03 * dt * 60;
     s := s l;
     r := r l + sin (now * 0.25 + wobble l) * 0.004 * dt * 60;
     vx := vx l;
     wobble := wobble l |}.

Definition onscreen (w h : R) (l : Leaf) : bool :=
  let margin := 0.8 in
  (if Rlt_dec (x l) (w / 2 + margin) then true else false)
  && (if Rlt_dec (- h / 2 - margin) (y l) then true else false)
  && (if Rlt_dec (y l) (h / 2 + margin) then true else false).

(** The [useFrame] callback: [ready] tells whether the mesh, the material
    and the leaf texture exist, [now] is the clock's elapsed time, [w] and
    [h] the viewport size. *)
Definition useFrame (enabled ready : bool) (now dt w h : R) (st : state)
  : state :=
  if negb enabled || negb ready then st
  else
    let st1 := firstSpawn now w h st in
    let st2 := timedSpawn now w h st1 in
    let moved := map (move now dt) (leaves st2) in
    let kept := filter (onscreen w h) moved in
    let count := Nat.min (Datatypes.length kept) maxLeaves in
    {| leaves := kept; idRef := idRef st2; nextSpawnAt := nextSpawnAt st2;
       meshCount := count; draws := draws st2 |}.

Inductive event : Type :=
| Frame (enabled ready : bool) (now dt w h : R)
| EnabledChanged (enabled : bool).

Definition step (st : state) (ev : event) : state :=
  match ev with
  | Frame en rd now dt w h => useFrame en rd now dt w h st
  | EnabledChanged en => enabledEffect en st
  end.

Definition run (st : state) (evs : list event) : state :=
  fold_left step evs st.

(** The population bound: the mesh draws at most [maxLeaves] instances,
    and there are at most [maxLeaves] leaves, or one leaf when
    [maxLeaves] is 0 (the forced first spawn does not look at the cap). *)
Definition capped (st : state) : Prop :=
  (meshCount st <= maxLeaves)%nat
  /\ (Datatypes.length (leaves st) <= Nat.max 1 maxLeaves)%nat.

End Component.

End LeafSystem.

(* ================================================================== *)
(** * WaterPlane: the compositing shader *)
(* ================================================================== *)

Module WaterPlane.
Import Glsl.

(** The uniforms of the material; [rippleSimSize] is the side of the
    ripple texture, and [uSceneTex] the background image as a function of
    the texture coordinates. *)
Record uniforms : Type := mkUniforms {
  uTime : R;
  uLevel : R;
  uTint : vec3;
  uSceneTex : vec2 -> vec3;
  uHasSceneTex : R;
  uRippleTex : texture;
  uHasRipple : R;
  uRippleTexel : vec2;
  rippleSimSize : Z
}.

Definition vadd (a b : vec3) : vec3 :=
  let '(a1, a2, a3) := a in let '(b1, b2, b3) := b in
  (a1 + b1, a2 + b2, a3 + b3).

Definition vscale (a : vec3) (k : R) : vec3 :=
  let '(a1, a2, a3) := a in (a1 * k, a2 * k, a3 * k).

Definition vmix (a b : vec3) (t : R) : vec3 :=
  let '(a1, a2, a3) := a in let '(b1, b2, b3) := b in
  (mix a1 b1 t, mix a2 b2 t, mix a3 b3 t).

Definition drift (u : uniforms) (p : vec2) : R :=
  let t := uTime u * 0.08 in
  let a := 0.015 in
  sin (fst p * 2.5 + t) * a + sin (snd p * 2.2 - t * 1.2) * a.

Definition decodeH (r : R) : R := r * 2 - 1.

Definition sampleRipple (u : uniforms) (uv : vec2) : R :=
  texture2D (rippleSimSize u) (uRippleTex u) uv.

Definition rippleH (u : uniforms) (uv : vec2) : R :=
  if Rlt_dec (uHasRipple u) 0.5 then 0
  else decodeH (sampleRipple u uv).

Definition rippleGrad (u : uniforms) (uv : vec2) : vec2 :=
  if Rlt_dec (uHasRipple u) 0.5 then (0, 0)
  else
    let e := uRippleTexel u in
    let hL := decodeH (sampleRipple u (fst uv - fst e, snd uv - 0)) in
    let hR := decodeH (sampleRipple u (fst uv + fst e, snd uv + 0)) in
    let hD := decodeH (sampleRipple u (fst uv - 0, snd uv - snd e)) in
    let hU := decodeH (sampleRipple u (fst uv + 0, snd uv + snd e)) in
    (hR - hL, hU - hD).

(** [gl_FragColor]: the colour and the alpha. *)
Definition main (u : uniforms) (vUv : vec2) : vec3 * R :=
  let p := ((fst vUv - 0.5) * (1 + uLevel u * 0.10) + 0.5,
            (snd vUv - 0.5) * (1 + uLevel u * 0.10) + 0.5) in
  let rUv := vUv in
  let h := drift u p + rippleH u rUv * 0.45 in
  let g := (fst (rippleGrad u rUv) * 0.85, snd (rippleGrad u rUv) * 0.85) in
  let rippleEnergy := length g in
  let highlight := smoothstep 0.06 0.22 rippleEnergy in
  let uv := vUv in
  let distort := (fst g * (0.03 * uLevel u), snd g * (0.03 * uLevel u)) in
  let distort :=
    (fst distort
       + sin (snd uv * 6 + uTime u * 0.15) * (0.0015 * uLevel u),
     snd distort
       + sin (fst uv * 6 - uTime u * 0.12) * (0.0015 * uLevel u)) in
  let distort := (fst distort + h * (0.006 * uLevel u),
                  snd distort + h * (0.006 * uLevel u)) in
  let bg :=
    if Rlt_dec 0.5 (uHasSceneTex u)
    then uSceneTex u (fst uv + fst distort, snd uv + snd distort)
    else uTint u in
  let col := vmix bg (uTint u) (0.25 + 0.35 * uLevel u) in
  let col := vadd col (vscale (0.18, 0.26, 0.32) highlight) in
  let distToCenter := distance vUv (0.5, 0.5) in
  let edge := smoothstep 0.20 0.75 distToCenter in
  let col :=
    vadd col (vscale (0.06, 0.10, 0.14) (edge * (0.3 + 0.7 * uLevel u))) in
  let alpha := 0.06 + 0.48 * uLevel u in
  let vignette := smoothstep 0.98 0.45 distToCenter in
  let alpha := alpha * vignette in
  (col, alpha).

Definition baseAlpha (lv : R) : R := 0.06 + 0.48 * lv.

Definition vignetteAt (distToCenter : R) : R :=
  smoothstep 0.98 0.45 distToCenter.

(** A frame of the pond at level 0, without background image and without
    ripple texture; the tint is the colour #2b74ff. *)
Definition stillWater : uniforms :=
  {| uTime := 0; uLevel := 0;
     uTint := (43 / 255, 116 / 255, 1);
     uSceneTex := fun _ => (0, 0, 0); uHasSceneTex := 0;
     uRippleTex := fun _ _ => 0.5; uHasRipple := 0;
     uRippleTexel := (1 / 512, 1 / 512); rippleSimSize := 512 |}.

End WaterPlane.

(* ================================================================== *)
(** * RippleSim: what the pointer refs and the exposed texture satisfy *)
(* ================================================================== *)

Module RippleRefs.
Import Glsl RippleSim.

Definition inUnitSquare (p : vec2) : Prop :=
  0 <= fst p <= 1 /\ 0 <= snd p <= 1.

(** The pointer is over the canvas, whose bounding rectangle is not
    empty. *)
Definition insideRect (e : pointerEvent) : Prop :=
  0 < rectWidth e /\ 0 < rectHeight e
  /\ rectLeft e <= clientX e <= rectLeft e + rectWidth e
  /\ rectTop e <= clientY e <= rectTop e + rectHeight e.

(** The ranges the refs of the simulator stay in. *)
Definition refsOk (s : state) : Prop :=
  0 <= impulse s <= 1.25
  /\ baseRadius <= impulseRadius s <= 0.04
  /\ (mouseUv s = (-10, -10) \/ inUnitSquare (mouseUv s)).

Definition isFrame (ev : event) : Prop :=
  match ev with
  | Frame _ => True
  | _ => False
  end.

End RippleRefs.

(* ================================================================== *)
(** * PondScene: the range of the level *)
(* ================================================================== *)

Module PondLevel.
Import PondScene.

(** An animation frame is on time when its timestamp is not before the
    start time the running effect recorded. *)
Definition onTime (s : scene) (ev : event) : Prop :=
  match ev with
  | AnimationFrame t => start s <= t
  | Render _ _ _ => True
  end.

(** The level and the starting point of the running transition are in
    [0, 1], the ref follows the level, and the effect was started for
    the current phase. *)
Definition levelOk (s : scene) : Prop :=
  0 <= level s <= 1
  /\ 0 <= from s <= 1
  /\ levelRef s = level s
  /\ to s = target (phase s)
  /\ dur s = duration (phase s).

(** A scene mounted in phase [filling] at time 100. *)
Definition lateMount : scene := mount filling (Some 7%nat) 100.

End PondLevel.

(* ================================================================== *)
(** * LeafSystem: what the leaves in the list satisfy *)
(* ================================================================== *)

Module LeafInv.
Import LeafSystem.

(** [Math.random()] returns numbers between 0 and 1. *)
Definition randomOk (random : nat -> R) : Prop :=
  forall n, 0 <= random n <= 1.

(** The leaf passes the cull test of a [w] by [h] viewport. *)
Definition visible (w h : R) (l : Leaf) : Prop :=
  x l < w / 2 + 0.8 /\ - h / 2 - 0.8 < y l < h / 2 + 0.8.

(** The ids of the leaves are pairwise distinct and all below the next
    id to hand out. *)
Definition idsOk (st : state) : Prop :=
  NoDup (map id (leaves st))
  /\ Forall (fun l => (id l < idRef st)%nat) (leaves st).

(** Every leaf has the drift velocity and the scale of a spawned leaf. *)
Definition spawnedShape (st : state) : Prop :=
  Forall (fun l => 0.10 <= vx l <= 0.22 /\ 0.13 <= s l <= 0.26)
         (leaves st).

(** A random source that always returns one half, and one frame of the
    pond's leaf layer (cap 9) on a 10 by 6 viewport. *)
Definition evenRandom : nat -> R := fun _ => 0.5.

Definition oneFrame : list event := [Frame true true 0 0.016 10 6].

End LeafInv.

(* ================================================================== *)
(** * useDataUrlTexture: the background image as a texture *)
(* ================================================================== *)

Module SceneTexture.

(** The hook of a mounted [WaterPlane].  Textures are named by the order
    in which [TextureLoader.load] created them.  [dataUrl] is the prop of
    the last render, [tex] the React state the hook returns, [owned] the
    texture [t] of the running effect (the one its cleanup disposes),
    [loaded] the number of textures created so far, and [disposals] the
    calls of [dispose()] so far, in order. *)
Record hook : Type := mkHook {
  dataUrl : option String.string;
  tex : option nat;
  owned : option nat;
  loaded : nat;
  disposals : list nat
}.

(** [!dataUrl]: [null] and the empty string. *)
Definition falsy (u : option String.string) : bool :=
  match u with
  | None => true
  | Some str => if String.string_dec str String.EmptyString then true else false
  end.

Definition sameUrl (u v : option String.string) : bool :=
  match u, v with
  | None, None => true
  | Some a, Some b => if String.string_dec a b then true else false
  | _, _ => false
  end.

(** [prev?.dispose()]. *)
Definition disposeOpt (p : option nat) (log : list nat) : list nat :=
  match p with
  | Some t => log ++ [t]
  | None => log
  end.

(** The cleanup of the running effect: [t.dispose()], if the effect
    returned a cleanup. *)
Definition cleanup (h : hook) : hook :=
  {| dataUrl := dataUrl h; tex := tex h; owned := None;
     loaded := loaded h; disposals := disposeOpt (owned h) (disposals h) |}.

(** The effect body for the prop [u], together with the state update it
    requests ([setTex] with an updater that disposes the previous
    state). *)
Definition effect (u : option String.string) (h : hook) : hook :=
  if falsy u then
    {| dataUrl := u; tex := None; owned := None;
       loaded := loaded h; disposals := disposeOpt (tex h) (disposals h) |}
  else
    let t := loaded h in
    {| dataUrl := u; tex := Some t; owned := Some t;
       loaded := S (loaded h);
       disposals := disposeOpt (tex h) (disposals h) |}.

(** First render: the state is [null] and the effect runs. *)
Definition mount (u : option String.string) : hook :=
  effect u {| dataUrl := u; tex := None; owned := None;
              loaded := 0; disposals := [] |}.

(** A later render: the effect runs again, after its cleanup, only when
    [dataUrl] changed. *)
Definition render (u : option String.string) (h : hook) : hook :=
  if sameUrl u (dataUrl h) then h else effect u (cleanup h).

Definition unmount (h : hook) : hook := cleanup h.

Definition renders (us : list (option String.string)) (h : hook) : hook :=
  fold_left (fun h' u => render u h') us h.

(** The number of [dispose()] calls a texture received. *)
Definition disposedTimes (h : hook) (t : nat) : nat :=
  count_occ Nat.eq_dec (disposals h) t.

(** The hook's bookkeeping is consistent: the texture returned is the
    one the running effect owns, it was never disposed, and every other
    texture created so far was disposed twice. *)
Definition tidy (h : hook) : Prop :=
  tex h = owned h
  /\ (tex h = None <-> falsy (dataUrl h) = true)
  /\ forall t,
       (tex h = Some t -> (t < loaded h)%nat /\ disposedTimes h t = 0%nat)
       /\ (tex h <> Some t -> (t < loaded h)%nat -> disposedTimes h t = 2%nat)
       /\ ((loaded h <= t)%nat -> disposedTimes h t = 0%nat).

(** Two images in a row, then none. *)
Import String.StringSyntax.
Local Open Scope string_scope.

Definition slideshow : list (option String.string) :=
  [Some "data:image/png;base64,AAAA";
   Some "data:image/png;base64,BBBB";
   None].

Local Close Scope string_scope.

End SceneTexture.

(* ================================================================== *)
(** * WaterPlane: the terms of the fragment colour *)
(* ================================================================== *)

Module WaterLook.
Import Glsl WaterPlane.

(** The intermediate values of [main], by the names they have there. *)
Definition zoomed (u : uniforms) (vUv : vec2) : vec2 :=
  ((fst vUv - 0.5) * (1 + uLevel u * 0.10) + 0.5,
   (snd vUv - 0.5) * (1 + uLevel u * 0.10) + 0.5).

Definition surfaceH (u : uniforms) (vUv : vec2) : R :=
  drift u (zoomed u vUv) + rippleH u vUv * 0.45.

Definition gradient (u : uniforms) (vUv : vec2) : vec2 :=
  (fst (rippleGrad u vUv) * 0.85, snd (rippleGrad u vUv) * 0.85).

Definition highlight (u : uniforms) (vUv : vec2) : R :=
  smoothstep 0.06 0.22 (length (gradient u vUv)).

Definition distortion (u : uniforms) (vUv : vec2) : vec2 :=
  let g := gradient u vUv in
  let h := surfaceH u vUv in
  let distort := (fst g * (0.03 * uLevel u), snd g * (0.03 * uLevel u)) in
  let distort :=
    (fst distort
       + sin (snd vUv * 6 + uTime u * 0.15) * (0.0015 * uLevel u),
     snd distort
       + sin (fst vUv * 6 - uTime u * 0.12) * (0.0015 * uLevel u)) in
  (fst distort + h * (0.006 * uLevel u),
   snd distort + h * (0.006 * uLevel u)).

Definition background (u : uniforms) (vUv : vec2) : vec3 :=
  if Rlt_dec 0.5 (uHasSceneTex u)
  then uSceneTex u (fst vUv + fst (distortion u vUv),
                    snd vUv + snd (distortion u vUv))
  else uTint u.

Definition edgeGlow (u : uniforms) (vUv : vec2) : R :=
  smoothstep 0.20 0.75 (distance vUv (0.5, 0.5)) * (0.3 + 0.7 * uLevel u).

(** Every texel of an [N] by [N] texture stores a value in [0, 1], as
    the simulator's targets do. *)
Definition storedUnit (N : Z) (t : texture) : Prop :=
  forall i j, (0 <= i < N)%Z -> (0 <= j < N)%Z -> 0 <= t i j <= 1.

(** The pond at full level with a flat ripple texture bound. *)
Definition fullWater : uniforms :=
  {| uTime := 0; uLevel := 1;
     uTint := (43 / 255, 116 / 255, 1);
     uSceneTex := fun _ => (0, 0, 0); uHasSceneTex := 0;
     uRippleTex := fun _ _ => 0.5; uHasRipple := 1;
     uRippleTexel := (1 / 512, 1 / 512); rippleSimSize := 512 |}.

End WaterLook.

(* ================================================================== *)
(** * LeafSystem: the vertex shader of the leaves *)
(* ================================================================== *)

Module LeafShader.
Import Glsl.

(** The uniforms the vertex shader reads; [simSize] is the side of the
    ripple texture. *)
Record uniforms : Type := mkUniforms {
  uRippleTex : texture;
  uHasRipple : R;
  uTexel : vec2;
  uViewport : vec2;
  uRide : R;
  uTilt : R;
  simSize : Z
}.

Definition decodeH (r : R) : R := r * 2 - 1.

Definition sampleH (u : uniforms) (uv : vec2) : R :=
  decodeH (texture2D (simSize u) (uRippleTex u) uv).

(** [ruv]: the world position of the instance's centre mapped to ripple
    texture coordinates and clamped. *)
Definition rippleUv (u : uniforms) (worldCenter : vec2) : vec2 :=
  (clamp (fst worldCenter / fst (uViewport u) + 0.5) 0.001 0.999,
   clamp (snd worldCenter / snd (uViewport u) + 0.5) 0.001 0.999).

(** [h] and [grad] at the end of the [if (uHasRipple > 0.5)] block. *)
Definition rippleAt (u : uniforms) (ruv : vec2) : R * vec2 :=
  if Rlt_dec 0.5 (uHasRipple u) then
    let hC := sampleH u ruv in
    let hL := sampleH u (fst ruv - fst (uTexel u), snd ruv - 0) in
    let hR := sampleH u (fst ruv + fst (uTexel u), snd ruv + 0) in
    let hD := sampleH u (fst ruv - 0, snd ruv - snd (uTexel u)) in
    let hU := sampleH u (fst ruv + 0, snd ruv + snd (uTexel u)) in
    (hC, (hR - hL, hU - hD))
  else (0, (0, 0)).

(** The vertex position [p] before the matrices are applied, for a
    vertex at [position] of an instance whose centre is at
    [worldCenter]. *)
Definition displace (u : uniforms) (worldCenter : vec2) (position : vec3)
  : vec3 :=
  let ruv := rippleUv u worldCenter in
  let h := fst (rippleAt u ruv) in
  let grad := snd (rippleAt u ruv) in
  let pz := snd position + h * uRide u in
  let px := fst (fst position) + fst grad * uTilt u * pz in
  let py := snd (fst position) + snd grad * uTilt u * pz in
  (px, py, pz).

(** The uniforms of the leaf material for a viewport and a ripple
    texture, if any: the tuning constants of the material, and what
    [useFrame] stores each frame. *)
Definition leafUniforms (N : Z) (viewport : vec2) (ripple : option texture)
  : uniforms :=
  {| uRippleTex := match ripple with Some t => t | None => fun _ _ => 0 end;
     uHasRipple := match ripple with Some _ => 1 | None => 0 end;
     uTexel := (1 / IZR N, 1 / IZR N);
     uViewport := viewport;
     uRide := 0.010;
     uTilt := 0.10;
     simSize := N |}.

End LeafShader.

(* ================================================================== *)
(** * PondScene: how the components are wired *)
(* ================================================================== *)

Module Wiring.
Import Glsl.

(** [enabled={phase === "on" || phase === "filling"}], for the simulator
    and for the leaves. *)
Definition simEnabled (ph : PondScene.PondPhase) : bool :=
  match ph with
  | PondScene.on | PondScene.filling => true
  | _ => false
  end.

(** What [onTexture] delivered, as a texture: the contents of the target
    it refers to. *)
Definition exposedTexture (s : RippleSim.state) : option texture :=
  match RippleSim.rippleTex s with
  | Some k => Some (RippleSim.rts s k)
  | None => None
  end.

(** The [useFrame] callback of [WaterPlane]: the uniforms after it, from
    the uniforms before, the frame's [dt] and the props of the last
    render.  A sampler set to [null] is not sampled; it reads 0 here. *)
Definition refresh (u : WaterPlane.uniforms) (dt level : R)
           (sceneTex : option (vec2 -> vec3)) (rippleTex : option texture)
  : WaterPlane.uniforms :=
  {| WaterPlane.uTime := WaterPlane.uTime u + dt;
     WaterPlane.uLevel := level;
     WaterPlane.uTint := WaterPlane.uTint u;
     WaterPlane.uSceneTex :=
       match sceneTex with Some f => f | None => fun _ => (0, 0, 0) end;
     WaterPlane.uHasSceneTex :=
       match sceneTex with Some _ => 1 | None => 0 end;
     WaterPlane.uRippleTex :=
       match rippleTex with Some t => t | None => fun _ _ => 0 end;
     WaterPlane.uHasRipple :=
       match rippleTex with Some _ => 1 | None => 0 end;
     WaterPlane.uRippleTexel := WaterPlane.uRippleTexel u;
     WaterPlane.rippleSimSize := WaterPlane.rippleSimSize u |}.

End Wiring.

(* ================================================================== *)
(** * Facts about the built-ins *)
(* ================================================================== *)

Module GlslFacts.
Import Glsl.

Lemma clamp_range (x lo hi : R) : lo <= hi -> lo <= clamp x lo hi <= hi.
Proof.
  intros Hle. unfold clamp, Rmin, Rmax.
  repeat destruct Rle_dec; lra.
Qed.

Lemma clamp_id (x lo hi : R) : lo <= x <= hi -> clamp x lo hi = x.
Proof.
  intros [H1 H2]. unfold clamp, Rmin, Rmax.
  repeat destruct Rle_dec; lra.
Qed.


Lemma Int_part_IZR (z : Z) : Int_part (IZR z) = z.
Proof. symmetry. apply Int_part_spec. lra. Qed.

Lemma edge_in (N k : Z) : (0 <= k < N)%Z -> edge N k = k.
Proof. unfold edge. lia. Qed.

Lemma edge_range (N k : Z) : (0 < N)%Z -> (0 <= edge N k < N)%Z.
Proof. unfold edge. lia. Qed.

(** Sampling exactly at a texel centre returns that texel (clamped to the
    edge): the interpolation weights of the other three texels are 0. *)
Lemma texture2D_centre (N : Z) (t : texture) (u v : R) (i j : Z) :
  u * IZR N - 1 / 2 = IZR i ->
  v * IZR N - 1 / 2 = IZR j ->
  texture2D N t (u, v) = texelFetch N t i j.
Proof.
  intros Hu Hv. unfold texture2D. cbn [fst snd].
  rewrite Hu, Hv, !Int_part_IZR. ring.
Qed.

End GlslFacts.

(* ================================================================== *)
(** * RippleSim: the wave step, the clamp invariant, the buffer roles *)
(* ================================================================== *)

Module RippleFacts.
Import Glsl GlslFacts RippleSim.

Lemma decode_encode (h : R) : decodeH (encodeH h) = h.
Proof. unfold decodeH, encodeH. lra. Qed.

Lemma setTarget_same (f : nat -> texture) (k : nat) (t : texture) :
  setTarget f k t k = t.
Proof. unfold setTarget. now rewrite Nat.eqb_refl. Qed.

Lemma setTarget_other (f : nat -> texture) (k k' : nat) (t : texture) :
  k' <> k -> setTarget f k t k' = f k'.
Proof.
  intros H. unfold setTarget.
  destruct (Nat.eqb_spec k' k); [contradiction | reflexivity].
Qed.

Lemma initClear_cleared (f : nat -> texture) (k : nat) :
  (k < 3)%nat -> initClear f k = clearColor.
Proof.
  intros Hk. unfold initClear. cbn [fold_left].
  destruct k as [|[|[|k]]]; try lia; reflexivity.
Qed.

Section Component.

Variable strength : R.
Variable simSize : Z.

Local Abbreviation useFrame := (useFrame strength simSize).
Local Abbreviation step := (step strength simSize).
Local Abbreviation reachable := (reachable strength simSize).
Local Abbreviation bounded := (bounded simSize).
Local Abbreviation inGrid := (inGrid simSize).
Local Abbreviation laplacian := (laplacian simSize).
Local Abbreviation energy := (energy simSize).

(** The height the shader computes for the pixel [(i, j)], read through
    texel indices instead of texture coordinates. *)
Lemma mainNext_pixel (s : state) (i j : Z) :
  inGrid i j ->
  mainNext simSize (material strength simSize s) (pixelUv simSize i j)
  = clamp
      (2 * height (current s) i j - height (previous s) i j
       + 0.35 * 0.35 * laplacian (current s) i j
       - 0.02 * (height (current s) i j - height (previous s) i j)
       + gaussian (distance (pixelUv simSize i j) (mouseUv s))
                  (impulseRadius s)
         * impulse s * strength)
      (-1) 1.
Proof.
  intros [Hi Hj].
  assert (HN : IZR simSize <> 0) by (apply not_0_IZR; lia).
  unfold mainNext, sampleH, material, laplacian, height, gaussian,
    current, previous.
  cbn [uPrev uPrevPrev uTexel uMouse uImpulse uImpulseRadius uC uDamping
       uStrength].
  cbv zeta.
  set (t := rts s (prevIdx s)). set (t1 := rts s (prevPrevIdx s)).
  assert (E0 : forall tx, texture2D simSize tx (pixelUv simSize i j) = tx i j).
  { intros tx. unfold pixelUv.
    rewrite (texture2D_centre simSize tx _ _ i j) by (field; exact HN).
    unfold texelFetch. now rewrite !edge_in by assumption. }
  rewrite !E0.
  unfold pixelUv at 1 2 3 4 5 6 7 8. cbn [fst snd].
  rewrite (texture2D_centre simSize t _ _ (i + 1) j)
    by (rewrite ?plus_IZR; field; exact HN).
  rewrite (texture2D_centre simSize t _ _ (i - 1) j)
    by (rewrite ?minus_IZR; field; exact HN).
  rewrite (texture2D_centre simSize t _ _ i (j + 1))
    by (rewrite ?plus_IZR; field; exact HN).
  rewrite (texture2D_centre simSize t _ _ i (j - 1))
    by (rewrite ?minus_IZR; field; exact HN).
  unfold texelFetch. f_equal. lra.
Qed.

(** Decoding what the shader stored gives back [next]. *)
Lemma render_height (s : state) (i j : Z) :
  height (render strength simSize s) i j
  = mainNext simSize (material strength simSize s) (pixelUv simSize i j).
Proof. unfold height, render, main. apply decode_encode. Qed.

(** The height of a cell after an enabled tick. *)
Lemma useFrame_height (s : state) (i j : Z) :
  inGrid i j ->
  height (current (useFrame true s)) i j
  = clamp
      (2 * height (current s) i j - height (previous s) i j
       + 0.35 * 0.35 * laplacian (current s) i j
       - 0.02 * (height (current s) i j - height (previous s) i j)
       + gaussian (distance (pixelUv simSize i j) (mouseUv s))
                  (impulseRadius s)
         * impulse s * strength)
      (-1) 1.
Proof.
  intros Hij. unfold current at 1. unfold RippleSim.useFrame.
  cbn [negb rts prevIdx]. rewrite setTarget_same, render_height.
  now apply mainNext_pixel.
Qed.

Lemma render_bounded (s : state) (i j : Z) :
  -1 <= height (render strength simSize s) i j <= 1.
Proof.
  unfold height, render, main. rewrite decode_encode.
  unfold mainNext. apply clamp_range. lra.
Qed.

(** ** The clamp invariant *)

Lemma init_bounded (garbage : nat -> texture) (t0 : R) :
  bounded (init garbage t0).
Proof.
  intros k i j Hk _. unfold init. cbn [rts].
  rewrite initClear_cleared by exact Hk.
  unfold height, clearColor, decodeH. lra.
Qed.

Lemma useFrame_bounded (en : bool) (s : state) :
  bounded s -> bounded (useFrame en s).
Proof.
  intros Hb k i j Hk Hij. unfold RippleSim.useFrame.
  destruct en; cbn [negb rts].
  - destruct (Nat.eq_dec k (writeIdx s)) as [-> | Hne].
    + rewrite setTarget_same. apply render_bounded.
    + rewrite setTarget_other by exact Hne. now apply Hb.
  - now apply Hb.
Qed.

Lemma step_bounded (s : state) (ev : event) :
  bounded s -> bounded (step s ev).
Proof.
  intros Hb. destruct ev as [en | en e now | en e now]; cbn [RippleSim.step].
  - now apply useFrame_bounded.
  - unfold onMove. destruct en; cbn [negb]; [|exact Hb].
    intros k i j Hk Hij. cbn [rts]. now apply Hb.
  - unfold onDown. destruct en; cbn [negb]; [|exact Hb].
    intros k i j Hk Hij. cbn [rts]. now apply Hb.
Qed.

Lemma reachable_bounded (s : state) : reachable s -> bounded s.
Proof.
  induction 1 as [garbage t0 | s ev _ IH].
  - apply init_bounded.
  - now apply step_bounded.
Qed.

(** ** The roles of the three targets *)

Lemma useFrame_roles (en : bool) (s : state) :
  rolesOk s -> rolesOk (useFrame en s).
Proof.
  unfold rolesOk, RippleSim.useFrame. intros Hp.
  destruct en; cbn [negb prevIdx prevPrevIdx writeIdx]; [|exact Hp].
  eapply Permutation_trans; [|exact Hp].
  change [prevIdx s; prevPrevIdx s; writeIdx s]
    with ([prevIdx s; prevPrevIdx s] ++ [writeIdx s]).
  apply Permutation_cons_append.
Qed.

Lemma step_roles (s : state) (ev : event) :
  rolesOk s -> rolesOk (step s ev).
Proof.
  intros Hp. destruct ev as [en | en e now | en e now]; cbn [RippleSim.step].
  - now apply useFrame_roles.
  - unfold onMove. destruct en; exact Hp.
  - unfold onDown. destruct en; exact Hp.
Qed.

Lemma reachable_roles (s : state) : reachable s -> rolesOk s.
Proof.
  induction 1 as [garbage t0 | s ev _ IH].
  - unfold rolesOk, init. cbn. apply Permutation_refl.
  - now apply step_roles.
Qed.

Lemma roles_distinct (s : state) :
  rolesOk s ->
  prevIdx s <> prevPrevIdx s /\ prevIdx s <> writeIdx s
  /\ prevPrevIdx s <> writeIdx s.
Proof.
  intros Hp.
  assert (Hnd : NoDup [prevIdx s; prevPrevIdx s; writeIdx s]).
  { eapply Permutation_NoDup; [apply Permutation_sym; exact Hp|].
    repeat constructor; cbn; intuition lia. }
  inversion Hnd as [|a l Hn1 Hnd1]; subst.
  inversion Hnd1 as [|a l Hn2 Hnd2]; subst.
  cbn in Hn1, Hn2. intuition.
Qed.

(** C1.  In an enabled tick the height written for every grid cell is
    the second-order finite-difference wave step
    [2*current - previous + c^2 * laplacian(current)
     - damping * (current - previous)
     + gaussian(distance(cell, mouse), radius) * impulse * strength],
    clamped to [-1, 1], with c = 0.35, damping = 0.02, the 4-neighbour
    Laplacian, and heights decoded from stored values by [h = 2r - 1]. *)
Theorem C1_wave_step (s : state) (i j : Z) :
  inGrid i j ->
  height (current (useFrame true s)) i j
  = clamp
      (2 * height (current s) i j - height (previous s) i j
       + 0.35 * 0.35 * laplacian (current s) i j
       - 0.02 * (height (current s) i j - height (previous s) i j)
       + gaussian (distance (pixelUv simSize i j) (mouseUv s))
                  (impulseRadius s)
         * impulse s * strength)
      (-1) 1
  /\ laplacian (current s) i j
     = height (current s) (edge simSize (i + 1)) j
       + height (current s) (edge simSize (i - 1)) j
       + height (current s) i (edge simSize (j + 1))
       + height (current s) i (edge simSize (j - 1))
       - 4 * height (current s) i j
  /\ forall t : texture, height t i j = 2 * t i j - 1.
Proof.
  intros Hij. split; [|split].
  - now apply useFrame_height.
  - destruct Hij as [Hi Hj]. unfold RippleSim.laplacian.
    now rewrite (edge_in simSize i Hi), (edge_in simSize j Hj).
  - intros t. unfold height, decodeH. lra.
Qed.

(** C2.  Every cell of the height field lies within [-1, 1] in every
    reachable state, and every step (a frame or a pointer event) keeps it
    so from any state, whatever impulse magnitude, radius and pointer
    position the state holds. *)
Theorem C2_heights_in_range (s : state) :
  (reachable s -> bounded s)
  /\ (bounded s -> forall ev : event, bounded (step s ev)).
Proof.
  split.
  - apply reachable_bounded.
  - intros Hb ev. now apply step_bounded.
Qed.

(** C3.  A tick with [enabled = false] delivers [null] as the texture and
    leaves the three targets and the three role indices as they were. *)
Theorem C3_disabled_tick (s : state) :
  rippleTex (useFrame false s) = None
  /\ rts (useFrame false s) = rts s
  /\ prevIdx (useFrame false s) = prevIdx s
  /\ prevPrevIdx (useFrame false s) = prevPrevIdx s
  /\ writeIdx (useFrame false s) = writeIdx s.
Proof. repeat split. Qed.

(** C4.  An enabled tick rotates the roles: the target just written
    becomes current, the old current becomes previous, the old previous
    becomes the next write target.  The three indices are a permutation
    of 0, 1, 2 before and after; only the write target is written; after
    the tick, current holds the new field and previous the old current. *)
Theorem C4_roles_rotate (s : state) :
  reachable s ->
  (prevIdx (useFrame true s) = writeIdx s
   /\ prevPrevIdx (useFrame true s) = prevIdx s
   /\ writeIdx (useFrame true s) = prevPrevIdx s)
  /\ rolesOk s /\ rolesOk (useFrame true s)
  /\ (forall k, k <> writeIdx s -> rts (useFrame true s) k = rts s k)
  /\ rts (useFrame true s) (writeIdx s) = render strength simSize s
  /\ current (useFrame true s) = render strength simSize s
  /\ previous (useFrame true s) = current s
  /\ rippleTex (useFrame true s) = Some (prevIdx (useFrame true s)).
Proof.
  intros Hr. pose proof (reachable_roles s Hr) as Hp.
  destruct (roles_distinct s Hp) as (H1 & H2 & H3).
  repeat split.
  - exact Hp.
  - now apply useFrame_roles.
  - intros k Hk. unfold RippleSim.useFrame. cbn [negb rts].
    now apply setTarget_other.
  - unfold RippleSim.useFrame. cbn [negb rts]. apply setTarget_same.
  - unfold current, RippleSim.useFrame. cbn [negb rts prevIdx].
    apply setTarget_same.
  - unfold previous, current, RippleSim.useFrame.
    cbn [negb rts prevPrevIdx]. now apply setTarget_other.
Qed.

End Component.

(** ** Total energy *)

Section Energy.

Variable strength : R.
Variable simSize : Z.

Local Abbreviation useFrame := (useFrame strength simSize).
Local Abbreviation inGrid := (inGrid simSize).
Local Abbreviation laplacian := (laplacian simSize).
Local Abbreviation energy := (energy simSize).
Local Abbreviation cells := (cells simSize).
Local Abbreviation ticks := (ticks strength simSize).
Local Abbreviation resting := (resting simSize).

Lemma sumR_cons (a : R) (l : list R) : sumR (a :: l) = a + sumR l.
Proof. reflexivity. Qed.

Lemma sumR_nonneg (A : Type) (f : A -> R) (l : list A) :
  (forall x, In x l -> 0 <= f x) -> 0 <= sumR (map f l).
Proof.
  induction l as [|a l IH]; intros H; cbn [map].
  - cbn. lra.
  - rewrite sumR_cons. pose proof (H a (or_introl eq_refl)).
    assert (0 <= sumR (map f l)) by (apply IH; intros; apply H; now right).
    lra.
Qed.

Lemma sumR_le_length (A : Type) (f : A -> R) (l : list A) :
  (forall x, In x l -> f x <= 1) -> sumR (map f l) <= INR (Datatypes.length l).
Proof.
  induction l as [|a l IH]; intros H.
  - cbn. lra.
  - cbn [map Datatypes.length]. rewrite sumR_cons, S_INR.
    pose proof (H a (or_introl eq_refl)).
    assert (sumR (map f l) <= INR (Datatypes.length l))
      by (apply IH; intros; apply H; now right).
    lra.
Qed.

Lemma sumR_zero (A : Type) (f : A -> R) (l : list A) :
  (forall x, In x l -> f x = 0) -> sumR (map f l) = 0.
Proof.
  induction l as [|a l IH]; intros H; cbn [map].
  - reflexivity.
  - rewrite sumR_cons, (H a (or_introl eq_refl)).
    rewrite IH by (intros; apply H; now right). lra.
Qed.

Lemma sumR_le (A : Type) (f g : A -> R) (l : list A) :
  (forall x, In x l -> f x <= g x) -> sumR (map f l) <= sumR (map g l).
Proof.
  induction l as [|a l IH]; intros H; cbn [map].
  - lra.
  - rewrite !sumR_cons. pose proof (H a (or_introl eq_refl)).
    assert (sumR (map f l) <= sumR (map g l))
      by (apply IH; intros; apply H; now right).
    lra.
Qed.

Lemma sumR_lt (A : Type) (f g : A -> R) (l : list A) :
  l <> [] ->
  (forall x, In x l -> f x < g x) -> sumR (map f l) < sumR (map g l).
Proof.
  destruct l as [|a l]; [congruence|]. intros _ H. cbn [map].
  rewrite !sumR_cons. pose proof (H a (or_introl eq_refl)).
  assert (sumR (map f l) <= sumR (map g l)).
  { apply sumR_le. intros x Hx. apply Rlt_le, H. now right. }
  lra.
Qed.

Lemma in_indices (k : Z) : In k (indices simSize) <-> (0 <= k < simSize)%Z.
Proof.
  unfold indices. rewrite in_map_iff. split.
  - intros (n & <- & Hn). apply in_seq in Hn. lia.
  - intros Hk. exists (Z.to_nat k). split; [lia|]. apply in_seq. lia.
Qed.

Lemma in_cells (c : Z * Z) : In c cells <-> inGrid (fst c) (snd c).
Proof.
  destruct c as [i j]. unfold RippleSim.cells, RippleSim.inGrid.
  rewrite in_prod_iff, !in_indices. reflexivity.
Qed.

Lemma cells_nonempty : (0 < simSize)%Z -> cells <> [].
Proof.
  intros HN Hnil.
  assert (H : In (0%Z, 0%Z) cells)
    by (apply in_cells; unfold RippleSim.inGrid; cbn; lia).
  rewrite Hnil in H. exact H.
Qed.

Lemma length_cells :
  (0 <= simSize)%Z ->
  INR (Datatypes.length cells) = IZR simSize * IZR simSize.
Proof.
  intros HN. unfold RippleSim.cells, indices.
  rewrite length_prod, length_map, length_seq, mult_INR.
  now rewrite INR_IZR_INZ, Z2Nat.id.
Qed.

Lemma gaussian_range (d radius : R) :
  0 < radius -> 0 < gaussian d radius <= 1.
Proof.
  intros Hr. unfold gaussian. split; [apply exp_pos|].
  assert (Hx : - (d * d) / (radius * radius) <= 0).
  { unfold Rdiv. assert (0 < / (radius * radius))
      by (apply Rinv_0_lt_compat; nra).
    assert (0 <= d * d) by nra. nra. }
  destruct Hx as [Hx | Hx].
  - rewrite <- exp_0. apply Rlt_le, exp_increasing, Hx.
  - rewrite Hx, exp_0. lra.
Qed.

Lemma energy_bounds (s : state) :
  (0 <= simSize)%Z ->
  0 <= energy (current (useFrame true s)) <= IZR simSize * IZR simSize.
Proof.
  intros HN. unfold RippleSim.energy. split.
  - apply sumR_nonneg. intros c _. nra.
  - rewrite <- length_cells by exact HN.
    apply sumR_le_length. intros c _.
    unfold current, RippleSim.useFrame. cbn [negb rts prevIdx].
    rewrite setTarget_same.
    pose proof (render_bounded strength simSize s (fst c) (snd c)). nra.
Qed.

(** A tick without impulse from a state whose current heights are all
    strictly between 0 and 1 and whose previous field is flat: every cell
    rises, and so does the total energy. *)
Lemma energy_grows (s : state) :
  (0 < simSize)%Z ->
  impulse s = 0 ->
  (forall i j, inGrid i j -> 0 < height (current s) i j < 1) ->
  (forall i j, inGrid i j -> height (previous s) i j = 0) ->
  energy (current s) < energy (current (useFrame true s)).
Proof.
  intros HN Himp Hcur Hprev. unfold RippleSim.energy.
  apply sumR_lt; [now apply cells_nonempty|].
  intros [i j] Hc. apply in_cells in Hc. cbn [fst snd] in *.
  rewrite useFrame_height by exact Hc.
  rewrite Himp, (Hprev i j Hc).
  pose proof (Hcur i j Hc) as Hh.
  destruct Hc as [Hi Hj].
  assert (He : forall k, (0 <= edge simSize k < simSize)%Z)
    by (intros k; apply edge_range; exact HN).
  assert (Hl : -4 * height (current s) i j < laplacian (current s) i j).
  { unfold RippleSim.laplacian.
    pose proof (Hcur (edge simSize (i + 1)) (edge simSize j)
                     (conj (He _) (He _))).
    pose proof (Hcur (edge simSize (i - 1)) (edge simSize j)
                     (conj (He _) (He _))).
    pose proof (Hcur (edge simSize i) (edge simSize (j + 1))
                     (conj (He _) (He _))).
    pose proof (Hcur (edge simSize i) (edge simSize (j - 1))
                     (conj (He _) (He _))).
    lra. }
  set (h := height (current s) i j) in *.
  set (l := laplacian (current s) i j) in *.
  set (g := gaussian _ _).
  assert (Hlt : h < clamp (2 * h - 0 + 0.35 * 0.35 * l - 0.02 * (h - 0)
                           + g * 0 * strength) (-1) 1).
  { unfold clamp, Rmin, Rmax. repeat destruct Rle_dec; lra. }
  nra.
Qed.

(** A tick with an impulse from a flat field at rest: every cell ends
    strictly between 0 and 1, and the previous field is the flat one. *)
Lemma splash (s : state) :
  rolesOk s ->
  (forall i j, inGrid i j -> height (current s) i j = 0) ->
  (forall i j, inGrid i j -> height (previous s) i j = 0) ->
  0 < impulse s <= 1 -> 0 < impulseRadius s -> 0 < strength < 1 ->
  forall i j, inGrid i j ->
    0 < height (current (useFrame true s)) i j < 1
    /\ height (previous (useFrame true s)) i j = 0.
Proof.
  intros Hp Hcur Hprev Him Hrad Hst i j Hij.
  assert (HN : (0 < simSize)%Z) by (destruct Hij; lia).
  assert (He : forall k, (0 <= edge simSize k < simSize)%Z)
    by (intros k; apply edge_range; exact HN).
  split.
  - rewrite useFrame_height by exact Hij.
    unfold RippleSim.laplacian.
    rewrite !Hcur, Hprev by (try exact Hij; split; apply He).
    pose proof (gaussian_range
                  (distance (pixelUv simSize i j) (mouseUv s))
                  (impulseRadius s) Hrad) as Hg.
    set (g := gaussian _ _) in *.
    assert (Hgi : 0 < g * impulse s <= 1) by nra.
    assert (Hprod : 0 < g * impulse s * strength < 1) by nra.
    rewrite clamp_id by lra. lra.
  - destruct (roles_distinct s Hp) as (_ & H2 & _).
    unfold previous, RippleSim.useFrame. cbn [negb rts prevPrevIdx].
    rewrite setTarget_other by exact H2. now apply Hcur.
Qed.

(** A pointer move that does not change the pointer position leaves the
    impulse at 0. *)
Lemma onMove_still (e : pointerEvent) (now : R) (s : state) :
  lastMouse s = getUvFromEvent e ->
  impulse (onMove true e now s) = 0.
Proof.
  intros Hl. unfold onMove. cbn [negb impulse]. rewrite Hl.
  replace (fst (getUvFromEvent e) - fst (getUvFromEvent e)) with 0 by ring.
  replace (snd (getUvFromEvent e) - snd (getUvFromEvent e)) with 0 by ring.
  replace (0 * 0 + 0 * 0) with 0 by ring. rewrite sqrt_0.
  unfold Rdiv. rewrite !Rmult_0_l.
  unfold Rmin. destruct Rle_dec; lra.
Qed.

Lemma sumR_const (A : Type) (f : A -> R) (c : R) (l : list A) :
  (forall x, In x l -> f x = c) ->
  sumR (map f l) = INR (Datatypes.length l) * c.
Proof.
  induction l as [|a l IH]; intros H.
  - cbn. lra.
  - cbn [map Datatypes.length]. rewrite sumR_cons, S_INR.
    rewrite (H a (or_introl eq_refl)).
    rewrite IH by (intros; apply H; now right). lra.
Qed.

Lemma roles_in_range (s : state) :
  rolesOk s ->
  (prevIdx s < 3)%nat /\ (prevPrevIdx s < 3)%nat /\ (writeIdx s < 3)%nat.
Proof.
  intros Hp.
  assert (H : forall k, In k [prevIdx s; prevPrevIdx s; writeIdx s] ->
                        (k < 3)%nat).
  { intros k Hk. apply (Permutation_in _ Hp) in Hk. cbn in Hk. lia. }
  repeat split; apply H; cbn; auto.
Qed.

(** Such a surface does not move. *)
Lemma useFrame_resting (c : R) (s : state) :
  (0 < simSize)%Z -> -1 <= c <= 1 ->
  resting c s -> resting c (useFrame true s).
Proof.
  intros HN Hc (Hp & Hi & Hu).
  destruct (roles_in_range s Hp) as (Hk1 & Hk2 & Hk3).
  split; [now apply useFrame_roles|]. split.
  - unfold RippleSim.useFrame. cbn [negb impulse]. rewrite Hi. lra.
  - intros k i j Hk Hij.
    destruct (Nat.eq_dec k (writeIdx s)) as [-> | Hne].
    + assert (He : forall n, (0 <= edge simSize n < simSize)%Z)
        by (intros n; apply edge_range; exact HN).
      pose proof (useFrame_height strength simSize s i j Hij) as Hh.
      unfold current at 1 in Hh. unfold RippleSim.useFrame in Hh.
      cbn [negb rts prevIdx] in Hh. unfold RippleSim.useFrame.
      cbn [negb rts]. rewrite Hh.
      unfold RippleSim.laplacian, current, previous.
      rewrite !Hu by (try assumption; split; apply He).
      rewrite Hi. rewrite clamp_id by lra. lra.
    + unfold RippleSim.useFrame. cbn [negb rts].
      rewrite setTarget_other by exact Hne. now apply Hu.
Qed.

Lemma ticks_resting (c : R) (n : nat) :
  (0 < simSize)%Z -> -1 <= c <= 1 ->
  forall s, resting c s -> resting c (ticks n s).
Proof.
  intros HN Hc. induction n as [|n IH]; intros s Hs; [exact Hs|].
  cbn [RippleSim.ticks]. apply IH. now apply useFrame_resting.
Qed.

Lemma resting_energy (c : R) (s : state) :
  (0 <= simSize)%Z -> resting c s ->
  energy (current s) = IZR simSize * IZR simSize * (c * c).
Proof.
  intros HN (Hp & _ & Hu).
  destruct (roles_in_range s Hp) as (Hk1 & _ & _).
  unfold RippleSim.energy. rewrite <- length_cells by exact HN.
  apply sumR_const. intros [i j] Hc. apply in_cells in Hc.
  cbn [fst snd] in *. unfold current. now rewrite Hu.
Qed.

End Energy.

(** C8, as amended.  In a tick without impulse the damping term keeps
    the fraction [1 - damping] of each cell's velocity: the new height is
    [h + (1 - damping) * (h - h1) + c^2 * laplacian], clamped.  The total
    energy after the tick lies between 0 and the number of cells, and it
    is 0 when the field was flat and at rest. *)
Theorem C8_damped_step (strength : R) (simSize : Z) (s : state) :
  (0 < simSize)%Z ->
  impulse s = 0 ->
  (forall i j, inGrid simSize i j ->
     height (current (useFrame strength simSize true s)) i j
     = clamp
         (height (current s) i j
          + (1 - 0.02) * (height (current s) i j - height (previous s) i j)
          + 0.35 * 0.35 * laplacian simSize (current s) i j)
         (-1) 1)
  /\ 0 <= energy simSize (current (useFrame strength simSize true s))
       <= IZR simSize * IZR simSize
  /\ ((forall i j, inGrid simSize i j ->
         height (current s) i j = 0 /\ height (previous s) i j = 0) ->
      energy simSize (current (useFrame strength simSize true s)) = 0).
Proof.
  intros HN Himp.
  assert (Hstep : forall i j, inGrid simSize i j ->
     height (current (useFrame strength simSize true s)) i j
     = clamp
         (height (current s) i j
          + (1 - 0.02) * (height (current s) i j - height (previous s) i j)
          + 0.35 * 0.35 * laplacian simSize (current s) i j)
         (-1) 1).
  { intros i j Hij. rewrite useFrame_height by exact Hij.
    rewrite Himp. f_equal. lra. }
  split; [exact Hstep|]. split; [apply energy_bounds; lia|].
  intros Hflat. unfold energy. apply sumR_zero.
  intros [i j] Hc. apply in_cells in Hc. cbn [fst snd] in *.
  rewrite Hstep by exact Hc.
  assert (He : forall k, (0 <= edge simSize k < simSize)%Z)
    by (intros k; apply edge_range; exact HN).
  unfold laplacian.
  rewrite !(fun a b H => proj1 (Hflat a b H))
    by (try exact Hc; split; apply He).
  rewrite (proj2 (Hflat i j Hc)).
  rewrite clamp_id by lra. lra.
Qed.

(** ** The run [stroke] *)

Lemma middle_uv : getUvFromEvent middle = (1 / 2, 1 / 2).
Proof.
  unfold getUvFromEvent, middle, clampJS.
  cbn [clientX clientY rectLeft rectTop rectWidth rectHeight].
  f_equal; unfold Rmax, Rmin; repeat destruct Rle_dec; lra.
Qed.

Lemma pond0_flat (k : nat) (i j : Z) :
  (k < 3)%nat -> height (rts pond0 k) i j = 0.
Proof.
  intros Hk. unfold pond0, init. cbn [rts].
  rewrite initClear_cleared by exact Hk.
  unfold height, clearColor, decodeH. lra.
Qed.

Lemma stroke_state :
  let s := run 0.9 512 pond0 stroke in
  impulse s = 0
  /\ (forall i j, inGrid 512 i j -> 0 < height (current s) i j < 1)
  /\ (forall i j, inGrid 512 i j -> height (previous s) i j = 0).
Proof.
  unfold run, stroke. cbn [fold_left step].
  set (s1 := onMove true middle 16 pond0).
  set (s2 := useFrame 0.9 512 true s1).
  assert (Hm : 0 < impulse s1 <= 1).
  { unfold s1, onMove. cbn [negb impulse lastMouse lastT pond0 init].
    rewrite middle_uv. cbn [fst snd].
    assert (Hs : 0 < sqrt ((1 / 2 - 0) * (1 / 2 - 0)
                           + (1 / 2 - 0) * (1 / 2 - 0)))
      by (apply sqrt_lt_R0; lra).
    set (q := sqrt _) in *.
    assert (Hd : Rmax 1 (16 - 0) = 16)
      by (unfold Rmax; destruct Rle_dec; lra).
    rewrite Hd.
    assert (Hsp : 0 < q / (16 / 1000) * 0.35).
    { apply Rmult_lt_0_compat; [|lra].
      apply Rdiv_lt_0_compat; lra. }
    unfold Rmin. destruct Rle_dec; lra. }
  assert (Hsplash : forall i j, inGrid 512 i j ->
            0 < height (current s2) i j < 1
            /\ height (previous s2) i j = 0).
  { apply splash.
    - unfold rolesOk, s1. cbn. apply Permutation_refl.
    - intros i j _. apply (pond0_flat 0). lia.
    - intros i j _. apply (pond0_flat 1). lia.
    - exact Hm.
    - unfold s1, onMove. cbn [negb impulseRadius].
      unfold pond0, init. cbn [impulseRadius]. unfold baseRadius. lra.
    - lra. }
  split; [|split].
  - apply onMove_still. unfold s2, s1, useFrame, onMove.
    cbn [negb lastMouse]. reflexivity.
  - intros i j Hij. exact (proj1 (Hsplash i j Hij)).
  - intros i j Hij. exact (proj2 (Hsplash i j Hij)).
Qed.

Lemma raised_resting : resting 512 0.1 raised.
Proof.
  split; [|split].
  - unfold rolesOk, raised. cbn. apply Permutation_refl.
  - reflexivity.
  - intros k i j _ _. unfold height, raised, decodeH. cbn [rts]. lra.
Qed.

(** C8, the claim as stated fails.  After [stroke] the impulse is 0 (and
    the damping is 0.02), yet the next tick increases the total energy.
    And from the surface [raised], at rest at height 0.1, the energy
    stays at 0.01 per cell for ever: it does not tend to 0. *)
Lemma C8_energy_grows :
  (reachable 0.9 512 (run 0.9 512 pond0 stroke)
   /\ impulse (run 0.9 512 pond0 stroke) = 0
   /\ energy 512 (current (run 0.9 512 pond0 stroke))
      < energy 512
          (current (useFrame 0.9 512 true (run 0.9 512 pond0 stroke))))
  /\ (forall n : nat,
        impulse (ticks 0.9 512 n raised) = 0
        /\ energy 512 (current (ticks 0.9 512 n raised))
           = 512 * 512 * 0.01).
Proof.
  split.
  - destruct stroke_state as (Himp & Hcur & Hprev).
    split; [|split].
    + unfold run, stroke. cbn [fold_left].
      repeat apply reach_step. apply reach_init.
    + exact Himp.
    + apply energy_grows; [lia | exact Himp | exact Hcur | exact Hprev].
  - intros n.
    assert (Hr : resting 512 0.1 (ticks 0.9 512 n raised))
      by (apply ticks_resting; [lia | lra | exact raised_resting]).
    split; [apply Hr|].
    rewrite (resting_energy 512 0.1) by (try exact Hr; lia). lra.
Qed.

(** C10.  After the init effect each of the three targets stores 0.5 in
    every texel, which decodes to height 0: the surface starts flat,
    whatever the targets held when they were allocated. *)
Theorem C10_initially_flat (garbage : nat -> texture) (t0 : R)
        (k : nat) (i j : Z) :
  (k < 3)%nat ->
  rts (init garbage t0) k i j = 0.5
  /\ height (rts (init garbage t0) k) i j = 0
  /\ decodeH 0.5 = 0.
Proof.
  intros Hk. unfold init. cbn [rts].
  rewrite initClear_cleared by exact Hk.
  unfold height, clearColor, decodeH. repeat split; lra.
Qed.

(** ** Concrete instances *)

Lemma C1_witness :
  inGrid 512 3 4
  /\ height (current (useFrame 0.9 512 true pond0)) 3 4
     = clamp
         (2 * height (current pond0) 3 4 - height (previous pond0) 3 4
          + 0.35 * 0.35 * laplacian 512 (current pond0) 3 4
          - 0.02 * (height (current pond0) 3 4
                    - height (previous pond0) 3 4)
          + gaussian (distance (pixelUv 512 3 4) (mouseUv pond0))
                     (impulseRadius pond0)
            * impulse pond0 * 0.9)
         (-1) 1.
Proof.
  assert (H : inGrid 512 3 4) by (unfold inGrid; lia).
  split; [exact H|].
  exact (proj1 (C1_wave_step 0.9 512 pond0 3 4 H)).
Defined.

Lemma C2_witness :
  reachable 0.9 512 pond0 /\ bounded 512 pond0.
Proof.
  assert (H : reachable 0.9 512 pond0) by apply reach_init.
  split; [exact H|].
  exact (proj1 (C2_heights_in_range 0.9 512 pond0) H).
Defined.

Lemma C4_witness :
  reachable 0.9 512 pond0
  /\ prevIdx (useFrame 0.9 512 true pond0) = 2%nat
  /\ prevPrevIdx (useFrame 0.9 512 true pond0) = 0%nat
  /\ writeIdx (useFrame 0.9 512 true pond0) = 1%nat.
Proof.
  assert (H : reachable 0.9 512 pond0) by apply reach_init.
  split; [exact H|].
  exact (proj1 (C4_roles_rotate 0.9 512 pond0 H)).
Defined.

Lemma C8_witness :
  (0 < 512)%Z
  /\ impulse pond0 = 0
  /\ 0 <= energy 512 (current (useFrame 0.9 512 true pond0)) <= 512 * 512.
Proof.
  assert (HN : (0 < 512)%Z) by lia.
  assert (Hi : impulse pond0 = 0) by reflexivity.
  split; [exact HN|]. split; [exact Hi|].
  exact (proj1 (proj2 (C8_damped_step 0.9 512 pond0 HN Hi))).
Defined.

Lemma C10_witness :
  (2 < 3)%nat /\ height (rts pond0 2) 7 9 = 0.
Proof.
  assert (H : (2 < 3)%nat) by lia.
  split; [exact H|].
  exact (proj1 (proj2 (C10_initially_flat (fun _ _ _ => 0) 0 2 7 9 H))).
Defined.

End RippleFacts.

(* ================================================================== *)
(** * PondScene: retargeting and the drained callback *)
(* ================================================================== *)

Module PondFacts.
Import PondScene.

Lemma duration_pos (ph : PondPhase) : 0 < duration ph.
Proof. destruct ph; cbn; lra. Qed.

Lemma ease_0 : easeInOutCubic 0 = 0.
Proof. unfold easeInOutCubic. destruct Rlt_dec; lra. Qed.

Lemma ease_half : easeInOutCubic (1 / 2) = 1 / 2.
Proof. unfold easeInOutCubic. destruct Rlt_dec; lra. Qed.

Lemma ease_1 : easeInOutCubic 1 = 1.
Proof. unfold easeInOutCubic. destruct Rlt_dec; lra. Qed.

Lemma PondPhase_eqb_eq (a b : PondPhase) :
  PondPhase_eqb a b = true <-> a = b.
Proof. destruct a, b; cbn; split; congruence. Qed.

Lemma PondPhase_eqb_neq (a b : PondPhase) :
  a <> b -> PondPhase_eqb a b = false.
Proof. destruct a, b; cbn; congruence. Qed.

Lemma callback_eqb_refl (cb : option nat) : callback_eqb cb cb = true.
Proof. destruct cb; cbn; [apply Nat.eqb_refl | reflexivity]. Qed.

Lemma tick_phase (now : R) (s : scene) : phase (fst (tick now s)) = phase s.
Proof. unfold tick. destruct Rlt_dec; reflexivity. Qed.

Lemma tick_onDrained (now : R) (s : scene) :
  onDrained (fst (tick now s)) = onDrained s.
Proof. unfold tick. destruct Rlt_dec; reflexivity. Qed.

Lemma mount_wf (ph : PondPhase) (cb : option nat) (now : R) :
  ph <> off -> wf (mount ph cb now).
Proof. intros H. unfold wf, mount. cbn. auto. Qed.

Lemma setProps_wf (ph : PondPhase) (cb : option nat) (now : R) (s : scene) :
  ph <> off -> wf s -> wf (setProps ph cb now s).
Proof.
  intros Hoff (H1 & H2 & H3 & H4). unfold setProps.
  destruct (PondPhase_eqb ph (phase s) && callback_eqb cb (onDrained s)).
  - repeat split; assumption.
  - repeat split; cbn; auto.
Qed.

Lemma tick_wf (now : R) (s : scene) : wf s -> wf (fst (tick now s)).
Proof.
  intros (H1 & H2 & H3 & H4). unfold tick.
  destruct Rlt_dec; repeat split; cbn; auto.
Qed.

Lemma reachable_wf (st : option scene) :
  reachable st -> forall s, st = Some s -> wf s.
Proof.
  induction 1 as [| st ev Hr IH]; intros s Hs; [discriminate|].
  destruct ev as [ph cb now | now]; destruct st as [s0|]; cbn in Hs.
  - destruct ph; inversion Hs; subst;
      (apply setProps_wf; [discriminate | now apply IH]).
  - destruct ph; inversion Hs; subst; apply mount_wf; discriminate.
  - destruct (raf s0); cbn in Hs; inversion Hs; subst.
    + apply tick_wf. now apply IH.
    + now apply IH.
  - discriminate.
Qed.

(** The progress [p] of a tick is below 1 exactly before [start + dur]. *)
Lemma progress_lt_1 (now : R) (s : scene) :
  0 < dur s ->
  (Rmin 1 ((now - start s) / dur s) < 1 <-> now < start s + dur s).
Proof.
  intros Hd. unfold Rmin.
  assert (Hq : (now - start s) / dur s < 1 <-> now < start s + dur s).
  { split; intros H.
    - apply (Rmult_lt_compat_r (dur s)) in H; [|exact Hd].
      unfold Rdiv in H. rewrite Rmult_assoc, Rinv_l in H; lra.
    - apply (Rmult_lt_reg_r (dur s)); [exact Hd|].
      unfold Rdiv. rewrite Rmult_assoc, Rinv_l; lra. }
  destruct Rle_dec; split; intros H; try lra; tauto.
Qed.

(** A tick before the end of the transition: the eased level, another
    frame requested, no callback. *)
Lemma tick_running (now : R) (s : scene) :
  0 < dur s -> now < start s + dur s ->
  tick now s =
  ({| phase := phase s; onDrained := onDrained s;
      level := from s + (to s - from s)
                 * easeInOutCubic (Rmin 1 ((now - start s) / dur s));
      levelRef := from s + (to s - from s)
                 * easeInOutCubic (Rmin 1 ((now - start s) / dur s));
      from := from s; to := to s; dur := dur s; start := start s;
      raf := true |}, []).
Proof.
  intros Hd Hlt. unfold tick.
  destruct Rlt_dec as [_ | Hn]; [reflexivity|].
  exfalso. apply Hn. now apply progress_lt_1.
Qed.

(** A tick at or after the end of the transition: the level is the
    target, no further frame is requested. *)
Lemma tick_done (now : R) (s : scene) :
  0 < dur s -> start s + dur s <= now ->
  tick now s =
  ({| phase := phase s; onDrained := onDrained s;
      level := to s; levelRef := to s;
      from := from s; to := to s; dur := dur s; start := start s;
      raf := false |}, completion s).
Proof.
  intros Hd Hge. unfold tick.
  destruct Rlt_dec as [Hlt | _]; [|reflexivity].
  exfalso. apply progress_lt_1 in Hlt; [lra | exact Hd].
Qed.

Lemma completion_draining (s : scene) (f : nat) :
  wf s -> phase s = draining -> onDrained s = Some f -> completion s = [f].
Proof.
  intros (_ & Hto & _ & _) Hph Hcb. unfold completion.
  rewrite Hph in *. cbn in *. rewrite Hcb.
  destruct Req_dec_T; [reflexivity | contradiction].
Qed.

Lemma completion_other (s : scene) :
  phase s <> draining -> completion s = [].
Proof.
  intros Hph. unfold completion. destruct (phase s); cbn; congruence.
Qed.

(** Once no frame is requested, animation frames do nothing. *)
Lemma run_frames_idle (s : scene) (ts : list R) :
  raf s = false -> run (Some s) (frames ts) = (Some s, []).
Proof.
  intros Hr. induction ts as [|t ts IH]; [reflexivity|].
  cbn [frames map run step]. rewrite Hr.
  change (map AnimationFrame ts) with (frames ts). now rewrite IH.
Qed.

(** The frames of one run of the effect invoke nothing as long as none
    of them reaches [start + dur]. *)
Lemma run_frames_running (ts : list R) :
  forall s, 0 < dur s -> raf s = true ->
    Forall (fun t => t < start s + dur s) ts ->
    snd (run (Some s) (frames ts)) = [].
Proof.
  induction ts as [|t ts IH]; intros s Hd Hr Hall; [reflexivity|].
  inversion Hall as [|t' ts' Ht Hts]; subst.
  cbn [frames map run step]. rewrite Hr.
  rewrite (tick_running t s Hd Ht).
  change (map AnimationFrame ts) with (frames ts).
  match goal with |- context [run (Some ?s1) _] =>
    specialize (IH s1 Hd eq_refl Hts);
    destruct (run (Some s1) (frames ts)) as [st2 c2] end.
  cbn in *. exact IH.
Qed.

(** They invoke exactly the completion callbacks, once, as soon as one
    of them reaches [start + dur]. *)
Lemma run_frames_complete (ts : list R) :
  forall s, 0 < dur s -> raf s = true ->
    Exists (fun t => start s + dur s <= t) ts ->
    snd (run (Some s) (frames ts)) = completion s.
Proof.
  induction ts as [|t ts IH]; intros s Hd Hr Hex.
  - inversion Hex.
  - cbn [frames map run step]. rewrite Hr.
    change (map AnimationFrame ts) with (frames ts).
    destruct (Rlt_dec t (start s + dur s)) as [Hlt | Hge].
    + rewrite (tick_running t s Hd Hlt).
      assert (Hex' : Exists (fun t => start s + dur s <= t) ts).
      { inversion Hex; subst; [lra | assumption]. }
      match goal with |- context [run (Some ?s1) _] =>
        specialize (IH s1 Hd eq_refl Hex');
        destruct (run (Some s1) (frames ts)) as [st2 c2] end.
      cbn in *. exact IH.
    + rewrite (tick_done t s Hd) by lra.
      rewrite run_frames_idle by reflexivity.
      cbn. apply app_nil_r.
Qed.

Lemma tick_calls (now : R) (s : scene) :
  snd (tick now s) <> [] ->
  phase s = draining /\ to s = 0
  /\ level (fst (tick now s)) = 0 /\ raf (fst (tick now s)) = false.
Proof.
  unfold tick. destruct Rlt_dec; cbn [fst snd level raf]; [congruence|].
  destruct (phase s); cbn; try congruence.
  destruct Req_dec_T; [|congruence]. auto.
Qed.

Lemma cube_mono (x y : R) : x <= y -> x * x * x <= y * y * y.
Proof.
  intros H.
  assert (E : y * y * y - x * x * x = (y - x) * (x * x + x * y + y * y))
    by ring.
  assert (0 <= x * x + x * y + y * y) by nra.
  assert (0 <= (y - x) * (x * x + x * y + y * y))
    by (apply Rmult_le_pos; lra).
  lra.
Qed.

(** The cubic ease never decreases. *)
Lemma ease_mono (p q : R) : p <= q -> easeInOutCubic p <= easeInOutCubic q.
Proof.
  intros H. unfold easeInOutCubic. cbn [pow].
  destruct (Rlt_dec p 0.5) as [Hp | Hp], (Rlt_dec q 0.5) as [Hq | Hq].
  - pose proof (cube_mono p q H). lra.
  - pose proof (cube_mono p 0.5 ltac:(lra)).
    pose proof (cube_mono (-2 * q + 2) 1 ltac:(lra)). lra.
  - lra.
  - pose proof (cube_mono (-2 * q + 2) (-2 * p + 2) ltac:(lra)). lra.
Qed.

Lemma ease_range (p : R) : 0 <= p <= 1 -> 0 <= easeInOutCubic p <= 1.
Proof.
  intros [H0 H1]. split.
  - rewrite <- ease_0. now apply ease_mono.
  - rewrite <- ease_1. now apply ease_mono.
Qed.

Lemma eased_mono (t0 d t1 t2 : R) :
  0 < d -> t1 <= t2 -> eased t0 d t1 <= eased t0 d t2.
Proof.
  intros Hd Ht. unfold eased. apply ease_mono.
  assert (Hq : (t1 - t0) / d <= (t2 - t0) / d).
  { unfold Rdiv. apply Rmult_le_compat_r; [|lra].
    apply Rlt_le, Rinv_0_lt_compat, Hd. }
  unfold Rmin. repeat destruct Rle_dec; lra.
Qed.

Lemma eased_range (t0 d t : R) : 0 < d -> t0 <= t -> 0 <= eased t0 d t <= 1.
Proof.
  intros Hd Ht. unfold eased. apply ease_range.
  assert (Hq : 0 <= (t - t0) / d).
  { unfold Rdiv. apply Rmult_le_pos; [lra|].
    apply Rlt_le, Rinv_0_lt_compat, Hd. }
  unfold Rmin. destruct Rle_dec; lra.
Qed.

Lemma eased_start (t0 d : R) : eased t0 d t0 = 0.
Proof.
  unfold eased. replace ((t0 - t0) / d) with 0 by (unfold Rdiv; ring).
  replace (Rmin 1 0) with 0 by (unfold Rmin; destruct Rle_dec; lra).
  apply ease_0.
Qed.

Lemma eased_end (t0 d t : R) : 0 < d -> t0 + d <= t -> eased t0 d t = 1.
Proof.
  intros Hd Ht. unfold eased.
  assert (Hq : 1 <= (t - t0) / d).
  { replace 1 with (d / d) by (field; lra).
    unfold Rdiv. apply Rmult_le_compat_r; [|lra].
    apply Rlt_le, Rinv_0_lt_compat, Hd. }
  replace (Rmin 1 ((t - t0) / d)) with 1
    by (unfold Rmin; destruct Rle_dec; lra).
  apply ease_1.
Qed.

(** The level a tick sets, in one formula for running and completing
    ticks. *)
Lemma tick_level (now : R) (s : scene) :
  0 < dur s ->
  level (fst (tick now s))
  = from s + (to s - from s) * eased (start s) (dur s) now.
Proof.
  intros Hd. destruct (Rlt_dec now (start s + dur s)) as [Hlt | Hge].
  - rewrite tick_running by assumption. reflexivity.
  - rewrite tick_done by lra. cbn [fst level].
    rewrite eased_end by lra. ring.
Qed.

(** C5.  A phase change during a transition starts the new eased
    interpolation from the level the scene currently has: the effect
    captures [from = level], and every tick sets the level to
    [level + (target - level) * e], where the eased progress [e] is 0 at
    the time of the change, never decreases, stays within [0, 1] and is 1
    from the end of the new duration on (500 ms towards 0 for
    [draining], 650 ms towards 1 otherwise). *)
Theorem C5_retarget_from_current
        (s : scene) (ph : PondPhase) (cb : option nat) (now : R) :
  reachable (Some s) -> ph <> off -> ph <> phase s ->
  step (Some s) (Render ph cb now) = (Some (setProps ph cb now s), [])
  /\ from (setProps ph cb now s) = level s
  /\ level (setProps ph cb now s) = level s
  /\ raf (setProps ph cb now s) = true
  /\ (forall t,
        level (fst (tick t (setProps ph cb now s)))
        = level s + (target ph - level s) * eased now (duration ph) t)
  /\ level (fst (tick now (setProps ph cb now s))) = level s
  /\ (forall t, now + duration ph <= t ->
        level (fst (tick t (setProps ph cb now s))) = target ph)
  /\ (forall t1 t2, t1 <= t2 ->
        eased now (duration ph) t1 <= eased now (duration ph) t2)
  /\ (forall t, now <= t -> 0 <= eased now (duration ph) t <= 1)
  /\ target draining = 0 /\ duration draining = 500.
Proof.
  intros Hr Hoff Hne.
  destruct (reachable_wf _ Hr s eq_refl) as (Href & _ & _ & _).
  pose proof (duration_pos ph) as Hd.
  split; [destruct ph; try reflexivity; contradiction|].
  assert (Hs : setProps ph cb now s =
               {| phase := ph; onDrained := cb;
                  level := level s; levelRef := levelRef s;
                  from := levelRef s; to := target ph; dur := duration ph;
                  start := now; raf := true |}).
  { unfold setProps. now rewrite (PondPhase_eqb_neq _ _ Hne). }
  rewrite Hs. cbn [from level raf].
  assert (Hrun : forall t,
     level (fst (tick t {| phase := ph; onDrained := cb;
                  level := level s; levelRef := levelRef s;
                  from := levelRef s; to := target ph; dur := duration ph;
                  start := now; raf := true |}))
     = level s + (target ph - level s) * eased now (duration ph) t).
  { intros t. rewrite tick_level by exact Hd. cbn. now rewrite Href. }
  repeat split; auto.
  - rewrite Hrun, eased_start. ring.
  - intros t Ht. rewrite Hrun, eased_end by assumption. ring.
  - intros t1 t2 Ht. now apply eased_mono.
  - now apply eased_range.
  - now apply eased_range.
Qed.

(** Events that keep the props act like their animation frames alone. *)
Lemma run_keepsProps (evs : list event) :
  forall s, phase s <> off -> Forall (keepsProps s) evs ->
    snd (run (Some s) evs) = snd (run (Some s) (frames (frameTimes evs))).
Proof.
  induction evs as [|ev evs IH]; intros s Hoff Hall; [reflexivity|].
  inversion Hall as [|ev' evs' Hev Hevs]; subst.
  destruct ev as [ph cb now | t].
  - destruct Hev as [-> ->]. cbn [frameTimes run].
    assert (Hst : step (Some s) (Render (phase s) (onDrained s) now)
                  = (Some s, [])).
    { cbn [step]. unfold setProps.
      rewrite (proj2 (PondPhase_eqb_eq _ _) eq_refl), callback_eqb_refl.
      cbn [andb]. destruct (phase s); try reflexivity. contradiction. }
    rewrite Hst. specialize (IH s Hoff Hevs).
    destruct (run (Some s) evs) as [st2 c2].
    cbn [snd app] in *. exact IH.
  - cbn [frameTimes frames map run step].
    change (map AnimationFrame (frameTimes evs))
      with (frames (frameTimes evs)).
    destruct (raf s).
    + assert (Hoff' : phase (fst (tick t s)) <> off)
        by (rewrite tick_phase; exact Hoff).
      assert (Hevs' : Forall (keepsProps (fst (tick t s))) evs).
      { eapply Forall_impl; [|exact Hevs].
        intros [ph cb now | t'] Hk; cbn in *; [|exact I].
        now rewrite tick_phase, tick_onDrained. }
      specialize (IH _ Hoff' Hevs').
      destruct (run (Some (fst (tick t s))) evs) as [st2 c2].
      destruct (run (Some (fst (tick t s))) (frames (frameTimes evs)))
        as [st3 c3].
      cbn [snd] in *. now rewrite IH.
    + specialize (IH s Hoff Hevs).
      destruct (run (Some s) evs) as [st2 c2].
      destruct (run (Some s) (frames (frameTimes evs))) as [st3 c3].
      cbn [snd] in *. now rewrite IH.
Qed.

(** C6.  One run of the level effect in phase [draining]: the effect is
    running, and the events that follow keep the props (animation frames
    at any times, renders with the same phase and the same [onDrained]
    function).  Then [onDrained] is invoked exactly once if a frame
    reaches the end of the 500 ms, and not at all before.  In the phases
    [filling] and [on] it is not invoked at all.  No step invokes it
    twice, and a tick that invokes it is a tick in phase [draining] that
    sets the level to 0 and requests no further frame.  A render that
    passes another function while the phase stays [draining] invokes
    nothing and starts a new run: 500 ms from the time of that render,
    from the current level, with the new function. *)
Theorem C6_onDrained_once (s : scene) (f : nat) (evs : list event) :
  reachable (Some s) -> raf s = true -> onDrained s = Some f ->
  Forall (keepsProps s) evs ->
  (phase s = draining ->
     (Exists (fun t => start s + 500 <= t) (frameTimes evs) ->
        snd (run (Some s) evs) = [f])
     /\ (Forall (fun t => t < start s + 500) (frameTimes evs) ->
        snd (run (Some s) evs) = []))
  /\ (phase s = filling \/ phase s = on -> snd (run (Some s) evs) = [])
  /\ (forall ev, snd (step (Some s) ev) = [f]
                 \/ snd (step (Some s) ev) = [])
  /\ (forall t, snd (tick t s) = [f] ->
        phase s = draining
        /\ level (fst (tick t s)) = 0
        /\ raf (fst (tick t s)) = false)
  /\ (forall g now, phase s = draining -> g <> f ->
        step (Some s) (Render draining (Some g) now)
        = (Some {| phase := draining; onDrained := Some g;
                   level := level s; levelRef := level s;
                   from := level s; to := 0; dur := 500;
                   start := now; raf := true |}, [])).
Proof.
  intros Hr Hraf Hcb Hkeep.
  pose proof (reachable_wf _ Hr s eq_refl) as Hwf.
  destruct Hwf as (Href & Hto & Hdur & Hoff).
  assert (Hd : 0 < dur s) by (rewrite Hdur; apply duration_pos).
  split; [|split; [|split; [|split]]].
  - intros Hph. rewrite (run_keepsProps evs s Hoff Hkeep).
    assert (H500 : dur s = 500) by (rewrite Hdur, Hph; reflexivity).
    rewrite <- H500. split.
    + intros Hex. rewrite run_frames_complete by assumption.
      apply completion_draining; [repeat split|..]; assumption.
    + intros Hall. now apply run_frames_running.
  - intros Hph. rewrite (run_keepsProps evs s Hoff Hkeep).
    assert (Hnd : phase s <> draining) by (destruct Hph; congruence).
    destruct (Forall_Exists_dec (fun t => t < start s + dur s)
                (fun t => Rlt_dec t (start s + dur s)) (frameTimes evs))
      as [Hall | Hex].
    + now apply run_frames_running.
    + rewrite run_frames_complete; try assumption.
      * now apply completion_other.
      * eapply Exists_impl; [|exact Hex]. cbn. intros a Ha. lra.
  - intros [ph cb now | now]; cbn [step].
    + right. destruct ph; reflexivity.
    + rewrite Hraf.
      destruct (Rlt_dec now (start s + dur s)) as [Hlt | Hge].
      * rewrite tick_running by assumption. now right.
      * rewrite tick_done by lra. cbn [snd]. unfold completion.
        rewrite Hcb. destruct PondPhase_eqb; [|now right].
        destruct Req_dec_T; [now left | now right].
  - intros t Ht.
    assert (Hne : snd (tick t s) <> []) by (rewrite Ht; discriminate).
    destruct (tick_calls t s Hne) as (H1 & _ & H3 & H4). auto.
  - intros g now Hph Hne. cbn [step]. unfold setProps.
    rewrite Hph, Hcb. cbn [PondPhase_eqb callback_eqb andb target duration].
    rewrite (proj2 (Nat.eqb_neq g f) Hne), Href. reflexivity.
Qed.

(** A completing tick of a run in phase [draining] invokes the function
    the run was started with. *)
Lemma completion_fires (g : nat) (lv lr fr st : R) (r : bool) :
  completion {| phase := draining; onDrained := Some g; level := lv;
                levelRef := lr; from := fr; to := 0; dur := 500;
                start := st; raf := r |} = [g].
Proof.
  unfold completion. cbn. destruct Req_dec_T; [reflexivity | lra].
Qed.

(** C6, against "exactly once per draining cycle".  A pond is shown
    ([on]), drained from time 1000 and taken away ([off]).  In the first
    cycle the host passes another [onDrained] function at time 1600,
    after the drain has completed: the prop is invoked twice, at 1500 and
    at 2100.  In the second the host passes another function every
    400 ms: after 900 ms of draining the prop has not been invoked. *)
Lemma C6_twice_or_never :
  snd (run None [Render on (Some 7%nat) 0;
                 Render draining (Some 7%nat) 1000;
                 AnimationFrame 1500;
                 Render draining (Some 8%nat) 1600;
                 AnimationFrame 2100;
                 Render off None 2200]) = [7%nat; 8%nat]
  /\ snd (run None [Render on (Some 7%nat) 0;
                    Render draining (Some 7%nat) 1000;
                    AnimationFrame 1400;
                    Render draining (Some 8%nat) 1400;
                    AnimationFrame 1800;
                    Render draining (Some 9%nat) 1800;
                    AnimationFrame 1900;
                    Render off None 1900]) = [].
Proof.
  split.
  - cbn [run step mount setProps PondPhase_eqb callback_eqb Nat.eqb andb
         target duration raf phase onDrained levelRef level].
    rewrite tick_done by (cbn; lra).
    cbn [run step mount setProps PondPhase_eqb callback_eqb Nat.eqb andb
         target duration raf phase onDrained levelRef level fst snd to].
    rewrite tick_done by (cbn; lra).
    cbn [run step fst snd app].
    rewrite !completion_fires. reflexivity.
  - cbn [run step mount setProps PondPhase_eqb callback_eqb Nat.eqb andb
         target duration raf phase onDrained levelRef level].
    rewrite tick_running by (cbn; lra).
    cbn [run step mount setProps PondPhase_eqb callback_eqb Nat.eqb andb
         target duration raf phase onDrained levelRef level fst snd to].
    rewrite tick_running by (cbn; lra).
    cbn [run step mount setProps PondPhase_eqb callback_eqb Nat.eqb andb
         target duration raf phase onDrained levelRef level fst snd to].
    rewrite tick_running by (cbn; lra).
    cbn [run step fst snd app]. reflexivity.
Qed.

Lemma C5_witness :
  reachable (Some halfFilled)
  /\ from (setProps draining (Some 7%nat) 400 halfFilled) = level halfFilled
  /\ level (fst (tick 900 (setProps draining (Some 7%nat) 400 halfFilled)))
     = 0.
Proof.
  assert (Hr : reachable (Some halfFilled)).
  { exact (reach_step _ (AnimationFrame 325)
             (reach_step None (Render filling (Some 7%nat) 0)
                         reach_unmounted)). }
  assert (Hoff : draining <> off) by discriminate.
  assert (Hne : draining <> phase halfFilled).
  { unfold halfFilled. rewrite tick_phase. discriminate. }
  pose proof (C5_retarget_from_current halfFilled draining (Some 7%nat) 400
                Hr Hoff Hne) as H.
  split; [exact Hr|]. split; [apply H|].
  destruct H as (_ & _ & _ & _ & _ & _ & Hend & _).
  apply Hend. cbn. lra.
Defined.

Lemma C6_witness :
  reachable (Some startedDraining)
  /\ snd (run (Some startedDraining) (frames [1016; 1250; 1500; 1516]))
     = [7%nat].
Proof.
  assert (Hr : reachable (Some startedDraining)).
  { exact (reach_step _ (Render draining (Some 7%nat) 1000)
             (reach_step None (Render on (Some 7%nat) 0) reach_unmounted)). }
  split; [exact Hr|].
  assert (Hk : Forall (keepsProps startedDraining)
                      (frames [1016; 1250; 1500; 1516]))
    by (repeat constructor).
  apply (C6_onDrained_once startedDraining 7
           (frames [1016; 1250; 1500; 1516]) Hr eq_refl eq_refl Hk);
    [reflexivity|].
  right. right. left. cbn. lra.
Defined.

End PondFacts.

(* ================================================================== *)
(** * LeafSystem: the population cap *)
(* ================================================================== *)

Module LeafFacts.
Import LeafSystem.

Section Component.

Variable maxLeaves : nat.
Variable spawnEvery : R * R.
Variable random : nat -> R.

Local Abbreviation spawnLeaf := (spawnLeaf maxLeaves random).
Local Abbreviation firstSpawn := (firstSpawn maxLeaves random).
Local Abbreviation timedSpawn := (timedSpawn maxLeaves spawnEvery random).
Local Abbreviation useFrame := (useFrame maxLeaves spawnEvery random).
Local Abbreviation step := (step maxLeaves spawnEvery random).
Local Abbreviation run := (run maxLeaves spawnEvery random).
Local Abbreviation capped := (capped maxLeaves).

(** A call of [spawnLeaf] adds at most one leaf and leaves the mesh
    alone. *)
Lemma spawnLeaf_length (w h : R) (st : state) :
  (length (leaves (spawnLeaf w h st)) <= S (length (leaves st)))%nat.
Proof.
  unfold LeafSystem.spawnLeaf.
  destruct (_ && _); cbn [leaves].
  - lia.
  - rewrite length_app. cbn. lia.
Qed.

Lemma firstSpawn_length (now w h : R) (st : state) :
  (length (leaves (firstSpawn now w h st))
   <= Nat.max 1 (length (leaves st)))%nat.
Proof.
  unfold LeafSystem.firstSpawn.
  destruct Req_dec_T; [|lia].
  cbn [leaves]. destruct (Nat.eqb_spec (length (leaves st)) 0) as [E | E].
  - match goal with |- context [LeafSystem.spawnLeaf _ _ w h ?s1] =>
      pose proof (spawnLeaf_length w h s1) as Hs end.
    cbn [leaves] in Hs. lia.
  - cbn [leaves]. lia.
Qed.

Lemma timedSpawn_length (now w h : R) (st : state) :
  (length (leaves (timedSpawn now w h st))
   <= Nat.max maxLeaves (length (leaves st)))%nat.
Proof.
  unfold LeafSystem.timedSpawn.
  destruct Rle_dec; [|lia].
  destruct (Nat.ltb_spec (length (leaves st)) maxLeaves) as [Hlt | Hge];
    [|lia].
  cbn [leaves]. pose proof (spawnLeaf_length w h st). lia.
Qed.

Lemma useFrame_capped (en rd : bool) (now dt w h : R) (st : state) :
  capped st -> capped (useFrame en rd now dt w h st).
Proof.
  intros [Hm Hl]. unfold LeafSystem.useFrame. cbv zeta.
  destruct (negb en || negb rd); [split; assumption|].
  split; cbn [meshCount leaves].
  - apply Nat.le_min_r.
  - eapply Nat.le_trans; [apply filter_length_le|].
    rewrite length_map.
    pose proof (firstSpawn_length now w h st) as H1.
    pose proof (timedSpawn_length now w h (firstSpawn now w h st)) as H2.
    lia.
Qed.

Lemma step_capped (st : state) (ev : event) :
  capped st -> capped (step st ev).
Proof.
  intros Hc. destruct ev as [en rd now dt w h | en]; cbn [LeafSystem.step].
  - now apply useFrame_capped.
  - destruct Hc as [Hm Hl]. unfold enabledEffect.
    destruct en; [split; assumption|].
    split; cbn [meshCount leaves length]; [exact Hm | lia].
Qed.

Lemma run_capped (evs : list event) :
  forall st, capped st -> capped (run st evs).
Proof.
  induction evs as [|ev evs IH]; intros st Hc; [exact Hc|].
  cbn. apply IH. now apply step_capped.
Qed.

(** C7.  Whatever the frames (times, steps, viewport), the changes of
    [enabled] and the values of [Math.random()], the instanced mesh never
    draws more than [maxLeaves] leaves and the set of leaves never holds
    more than [maxLeaves] of them (one, if [maxLeaves] is 0). *)
Theorem C7_population_capped (evs : list event) :
  (meshCount (run (init maxLeaves) evs) <= maxLeaves)%nat
  /\ (length (leaves (run (init maxLeaves) evs)) <= Nat.max 1 maxLeaves)%nat
  /\ meshCount (run (init maxLeaves) evs)
     = Nat.min (meshCount (run (init maxLeaves) evs)) maxLeaves.
Proof.
  assert (Hc : capped (run (init maxLeaves) evs)).
  { apply run_capped. split; cbn; lia. }
  destruct Hc as [Hm Hl]. repeat split; try assumption. lia.
Qed.

End Component.

(** The pond's configuration: at most 9 leaves, in the list and on
    screen. *)
Corollary pond_leaves_at_most_9 (random : nat -> R) (evs : list event) :
  (length (leaves (run 9 (2.5, 6.5)%R random (init 9) evs)) <= 9)%nat
  /\ (meshCount (run 9 (2.5, 6.5)%R random (init 9) evs) <= 9)%nat.
Proof.
  pose proof (run_capped 9 (2.5, 6.5) random evs (init 9)) as H.
  destruct H as [Hm Hl]; [split; cbn; lia|].
  split; [exact Hl | exact Hm].
Qed.

(** The corner [maxLeaves = 0]: the first enabled frame (here with a
    10 x 6 viewport and [Math.random()] returning 0) forces a leaf into
    the list although the cap is 0; the mesh draws none. *)
Lemma cap0_first_frame :
  length (leaves (useFrame 0 (2.5, 6.5)%R (fun _ => 0%R) true true
                           0 0.016 10 6 (init 0))) = 1%nat
  /\ meshCount (useFrame 0 (2.5, 6.5)%R (fun _ => 0%R) true true
                         0 0.016 10 6 (init 0)) = 0%nat.
Proof.
  unfold useFrame. cbn [negb orb]. cbv zeta.
  assert (E1 : firstSpawn 0 (fun _ => 0) 0 10 6 (init 0)
               = {| leaves :=
                      [ {| id := 1; x := - 10 / 2 - 0.65;
                           y := Glsl.lerp (- 6 / 2 + 0.6) (6 / 2 - 0.6) 0;
                           s := Glsl.lerp 0.13 0.26 0;
                           r := Glsl.lerp (- PI) PI 0;
                           vx := Glsl.lerp 0.10 0.22 0;
                           wobble := 0 * PI * 2 |} ];
                    idRef := 2;
                    nextSpawnAt := 0 + Glsl.lerp 0.2 0.8 0;
                    meshCount := 0; draws := 6 |}).
  { unfold firstSpawn, init. cbn [nextSpawnAt leaves draws idRef meshCount].
    destruct Req_dec_T as [_ | Hn]; [|contradiction].
    reflexivity. }
  rewrite E1.
  assert (E2 : forall st, nextSpawnAt st = 0 + Glsl.lerp 0.2 0.8 0 ->
                 timedSpawn 0 (2.5, 6.5) (fun _ => 0) 0 10 6 st = st).
  { intros st Hst. unfold timedSpawn. rewrite Hst.
    destruct Rle_dec as [Hle | _]; [|reflexivity].
    unfold Glsl.lerp in Hle. lra. }
  rewrite E2 by reflexivity.
  cbn [leaves map meshCount].
  assert (E3 : forall l, x l = - 10 / 2 - 0.65 -> vx l = Glsl.lerp 0.10 0.22 0 ->
                 y l = Glsl.lerp (- 6 / 2 + 0.6) (6 / 2 - 0.6) 0 ->
                 wobble l = 0 * PI * 2 ->
                 onscreen 10 6 (move 0 0.016 l) = true).
  { intros l Hx Hv Hy Hw. unfold onscreen, move. cbn [x y].
    rewrite Hx, Hv, Hy, Hw.
    replace (0 * 0.35 + 0 * PI * 2) with 0 by ring.
    rewrite sin_0. unfold Glsl.lerp.
    repeat (destruct Rlt_dec; [|lra]). reflexivity. }
  cbn [filter]. rewrite E3 by reflexivity.
  split; reflexivity.
Qed.

End LeafFacts.

(* ================================================================== *)
(** * WaterPlane: opacity and tint grow with the level *)
(* ================================================================== *)

Module WaterFacts.
Import Glsl GlslFacts WaterPlane.

Lemma hermite_range (t : R) : 0 <= t <= 1 -> 0 <= t * t * (3 - 2 * t) <= 1.
Proof.
  intros [H0 H1]. split.
  - apply Rmult_le_pos; [apply Rmult_le_pos; lra | lra].
  - assert (H : 1 - t * t * (3 - 2 * t) = (1 - t) * (1 - t) * (1 + 2 * t))
      by ring.
    assert (0 <= (1 - t) * (1 - t) * (1 + 2 * t))
      by (apply Rmult_le_pos; [apply Rmult_le_pos; lra | lra]).
    lra.
Qed.


Lemma smoothstep_range (e0 e1 x : R) : 0 <= smoothstep e0 e1 x <= 1.
Proof.
  unfold smoothstep. cbv zeta. apply hermite_range.
  apply clamp_range. lra.
Qed.

(** The vignette is 1 near the centre, falls with the distance and is 0
    from distance 0.98 on. *)
Lemma vignette_range (d : R) : 0 <= vignetteAt d <= 1.
Proof. apply smoothstep_range. Qed.


Lemma vignette_far (d : R) : 0.98 <= d -> vignetteAt d = 0.
Proof.
  intros Hd. unfold vignetteAt, smoothstep. cbv zeta.
  assert (Hq : (d - 0.98) / (0.45 - 0.98) <= 0).
  { unfold Rdiv. assert (/ (0.45 - 0.98) < 0)
      by (apply Rinv_lt_0_compat; lra). nra. }
  assert (Hc : clamp ((d - 0.98) / (0.45 - 0.98)) 0 1 = 0)
    by (unfold clamp, Rmin, Rmax; repeat destruct Rle_dec; lra).
  rewrite Hc. ring.
Qed.

Lemma vignette_near (d : R) : d <= 0.45 -> vignetteAt d = 1.
Proof.
  intros Hd. unfold vignetteAt, smoothstep. cbv zeta.
  assert (Hq : 1 <= (d - 0.98) / (0.45 - 0.98)).
  { replace 1 with ((0.45 - 0.98) / (0.45 - 0.98)) by (field; lra).
    unfold Rdiv. assert (/ (0.45 - 0.98) < 0)
      by (apply Rinv_lt_0_compat; lra). nra. }
  assert (Hc : clamp ((d - 0.98) / (0.45 - 0.98)) 0 1 = 1)
    by (unfold clamp, Rmin, Rmax; repeat destruct Rle_dec; lra).
  rewrite Hc. ring.
Qed.

Lemma main_alpha (u : uniforms) (vUv : vec2) :
  snd (main u vUv)
  = baseAlpha (uLevel u) * vignetteAt (distance vUv (0.5, 0.5)).
Proof. reflexivity. Qed.





End WaterFacts.

(* ================================================================== *)
(** * RippleSim: pointer input, decay and the exposed texture *)
(* ================================================================== *)

Module RippleRefsFacts.
Import Glsl GlslFacts RippleSim RippleFacts RippleRefs.

Lemma clampJS_unit (v : R) : 0 <= clampJS v 0 1 <= 1.
Proof. unfold clampJS, Rmax, Rmin. repeat destruct Rle_dec; lra. Qed.

Lemma clampJS_inside (v : R) : 0 <= v <= 1 -> clampJS v 0 1 = v.
Proof. intros H. unfold clampJS, Rmax, Rmin. repeat destruct Rle_dec; lra. Qed.

Lemma getUv_unit (e : pointerEvent) : inUnitSquare (getUvFromEvent e).
Proof.
  unfold inUnitSquare, getUvFromEvent. cbn [fst snd].
  split; apply clampJS_unit.
Qed.

(** X1.  For a canvas rectangle that is not empty, [getUvFromEvent] gives
    a point of the unit square wherever the pointer is.  For a pointer
    over the canvas it is the position relative to the rectangle, the
    vertical axis pointing up; a pointer beyond a side of the rectangle is
    mapped onto that side. *)
Theorem getUv_in_unit_square (e : pointerEvent) :
  0 < rectWidth e -> 0 < rectHeight e ->
  inUnitSquare (getUvFromEvent e)
  /\ (insideRect e ->
      getUvFromEvent e
      = ((clientX e - rectLeft e) / rectWidth e,
         1 - (clientY e - rectTop e) / rectHeight e))
  /\ (clientX e <= rectLeft e -> fst (getUvFromEvent e) = 0)
  /\ (rectLeft e + rectWidth e <= clientX e -> fst (getUvFromEvent e) = 1)
  /\ (clientY e <= rectTop e -> snd (getUvFromEvent e) = 1)
  /\ (rectTop e + rectHeight e <= clientY e -> snd (getUvFromEvent e) = 0).
Proof.
  intros Hw Hh.
  assert (Hiw : 0 < / rectWidth e) by (apply Rinv_0_lt_compat, Hw).
  assert (Hih : 0 < / rectHeight e) by (apply Rinv_0_lt_compat, Hh).
  assert (Hww : rectWidth e * / rectWidth e = 1) by (apply Rinv_r; lra).
  assert (Hhh : rectHeight e * / rectHeight e = 1) by (apply Rinv_r; lra).
  split; [apply getUv_unit|].
  unfold getUvFromEvent. cbn [fst snd]. unfold Rdiv.
  split; [|repeat split].
  - intros (_ & _ & Hx & Hy).
    rewrite !clampJS_inside; [reflexivity | split; nra | split; nra].
  - intros Hx. unfold clampJS, Rmax, Rmin. repeat destruct Rle_dec; nra.
  - intros Hx. unfold clampJS, Rmax, Rmin. repeat destruct Rle_dec; nra.
  - intros Hy. unfold clampJS, Rmax, Rmin. repeat destruct Rle_dec; nra.
  - intros Hy. unfold clampJS, Rmax, Rmin. repeat destruct Rle_dec; nra.
Qed.

Lemma getUv_witness :
  0 < rectWidth middle /\ 0 < rectHeight middle /\ insideRect middle
  /\ getUvFromEvent middle = ((50 - 0) / 100, 1 - (50 - 0) / 100).
Proof.
  assert (Hw : 0 < rectWidth middle) by (cbn; lra).
  assert (Hh : 0 < rectHeight middle) by (cbn; lra).
  assert (H : insideRect middle) by (unfold insideRect, middle; cbn; lra).
  split; [exact Hw|]. split; [exact Hh|]. split; [exact H|].
  exact (proj1 (proj2 (getUv_in_unit_square middle Hw Hh)) H).
Defined.

Section Component.

Variable strength : R.
Variable simSize : Z.

Local Abbreviation useFrame := (useFrame strength simSize).
Local Abbreviation step := (step strength simSize).
Local Abbreviation run := (run strength simSize).
Local Abbreviation reachable := (reachable strength simSize).
Local Abbreviation ticks := (ticks strength simSize).

Lemma init_refsOk (garbage : nat -> texture) (t0 : R) :
  refsOk (init garbage t0).
Proof.
  unfold refsOk, init, baseRadius. cbn [impulse impulseRadius mouseUv].
  repeat split; try lra. now left.
Qed.

Lemma speed_nonneg (dx dy dt : R) :
  0 <= sqrt (dx * dx + dy * dy) / (Rmax 1 dt / 1000).
Proof.
  apply Rmult_le_pos; [apply sqrt_pos|].
  apply Rlt_le, Rinv_0_lt_compat.
  unfold Rmax. destruct Rle_dec; lra.
Qed.

Lemma step_refsOk (s : state) (ev : event) : refsOk s -> refsOk (step s ev).
Proof.
  intros (Hi & Hr & Hm). unfold baseRadius in Hr.
  destruct ev as [en | en e now | en e now]; cbn [RippleSim.step].
  - unfold RippleSim.useFrame.
    destruct en; cbn [negb]; unfold refsOk, baseRadius, lerp;
      cbn [impulse impulseRadius mouseUv]; repeat split; try lra; exact Hm.
  - unfold onMove. destruct en; cbn [negb];
      [|unfold refsOk, baseRadius; auto].
    unfold refsOk, baseRadius. cbn [impulse impulseRadius mouseUv].
    pose proof (speed_nonneg
                  (fst (getUvFromEvent e) - fst (lastMouse s))
                  (snd (getUvFromEvent e) - snd (lastMouse s))
                  (now - lastT s)) as Hs.
    repeat split; try lra.
    + unfold Rmin. destruct Rle_dec; lra.
    + unfold Rmin. destruct Rle_dec; lra.
    + right. apply getUv_unit.
  - unfold onDown. destruct en; cbn [negb];
      [|unfold refsOk, baseRadius; auto].
    unfold refsOk, baseRadius. cbn [impulse impulseRadius mouseUv].
    repeat split; try lra.
    + unfold Rmax. destruct Rle_dec; lra.
    + unfold Rmax. destruct Rle_dec; lra.
    + right. apply getUv_unit.
Qed.

Lemma reachable_refsOk (s : state) : reachable s -> refsOk s.
Proof.
  induction 1 as [garbage t0 | s ev _ IH].
  - apply init_refsOk.
  - now apply step_refsOk.
Qed.

(** X2.  In every reachable state the impulse lies in [0, 1.25], the splat
    radius in [0.02, 0.04], and the pointer position is the initial
    (-10, -10) or a point of the unit square. *)
Theorem refs_in_range (s : state) :
  reachable s ->
  0 <= impulse s <= 1.25
  /\ 0.02 <= impulseRadius s <= 0.04
  /\ (mouseUv s = (-10, -10) \/ inUnitSquare (mouseUv s)).
Proof.
  intros Hr. unfold baseRadius.
  induction Hr as [garbage t0 | s ev _ IH].
  - apply init_refsOk.
  - apply step_refsOk, IH.
Qed.

(** X3.  A pointer-down on an enabled simulator sets the impulse to exactly
    1.25, whatever it was, the radius to 0.04 and the pointer position to
    the event's; a disabled simulator ignores it. *)
Theorem click_splash (s : state) (e : pointerEvent) (now : R) :
  reachable s ->
  impulse (onDown true e now s) = 1.25
  /\ impulseRadius (onDown true e now s) = 0.04
  /\ mouseUv (onDown true e now s) = getUvFromEvent e
  /\ onDown false e now s = s.
Proof.
  intros Hr. destruct (reachable_refsOk s Hr) as (Hi & _ & _).
  unfold onDown. cbn [negb impulse impulseRadius mouseUv].
  repeat split. unfold Rmax. destruct Rle_dec; lra.
Qed.

(** X4.  A pointer-move on an enabled simulator sets an impulse between 0
    and 1: 0.35 times the distance moved per second, an elapsed time
    below 1 ms counting as 1 ms, capped at 1; it is 0 when the pointer
    has not moved. *)
Theorem move_impulse (s : state) (e : pointerEvent) (now : R) :
  0 <= impulse (onMove true e now s) <= 1
  /\ (lastMouse s = getUvFromEvent e -> impulse (onMove true e now s) = 0)
  /\ impulse (onMove true e now s)
     = Rmin 1 (distance (getUvFromEvent e) (lastMouse s)
               / (Rmax 1 (now - lastT s) / 1000) * 0.35).
Proof.
  split; [|split].
  - unfold onMove. cbn [negb impulse].
    pose proof (speed_nonneg
                  (fst (getUvFromEvent e) - fst (lastMouse s))
                  (snd (getUvFromEvent e) - snd (lastMouse s))
                  (now - lastT s)) as Hs.
    unfold Rmin. destruct Rle_dec; lra.
  - apply onMove_still.
  - reflexivity.
Qed.

(** X5.  After [n] enabled frames without pointer events the impulse is
    [0.85 ^ n] times what it was and the excess of the radius over its
    base [0.82 ^ n] times what it was. *)
Theorem impulse_decay (n : nat) (s : state) :
  impulse (ticks n s) = impulse s * 0.85 ^ n
  /\ impulseRadius (ticks n s) - baseRadius
     = (impulseRadius s - baseRadius) * 0.82 ^ n.
Proof.
  revert s. induction n as [|n IH]; intros s.
  - cbn. split; ring.
  - cbn [RippleSim.ticks]. destruct (IH (useFrame true s)) as [H1 H2].
    rewrite H1, H2. unfold RippleSim.useFrame, lerp.
    cbn [negb impulse impulseRadius pow].
    set (a := 0.85 ^ n). set (b := 0.82 ^ n). split; nra.
Qed.

(** X6.  The texture handed to the compositor and the leaves is always the
    target in the role current: never the write target, never the
    previous field. *)
Theorem exposed_is_current (s : state) (k : nat) :
  reachable s -> rippleTex s = Some k ->
  k = prevIdx s /\ k <> writeIdx s /\ k <> prevPrevIdx s /\ (k < 3)%nat.
Proof.
  intros Hr Hk.
  assert (He : rippleTex s = None \/ rippleTex s = Some (prevIdx s)).
  { clear Hk. induction Hr as [garbage t0 | s ev _ IH]; [now left|].
    destruct ev as [en | en e now | en e now]; cbn [RippleSim.step].
    - unfold RippleSim.useFrame. destruct en; cbn; auto.
    - unfold onMove. destruct en; cbn; auto.
    - unfold onDown. destruct en; cbn; auto. }
  destruct He as [He | He]; rewrite He in Hk; [discriminate|].
  injection Hk as <-.
  pose proof (reachable_roles strength simSize s Hr) as Hp.
  destruct (roles_distinct s Hp) as (H1 & H2 & _).
  destruct (roles_in_range s Hp) as (H3 & _ & _).
  repeat split; auto.
Qed.

Lemma step_resting_frame (s : state) (ev : event) :
  (0 < simSize)%Z -> isFrame ev ->
  resting simSize 0 s -> resting simSize 0 (step s ev).
Proof.
  intros HN Hf Hs. destruct ev as [en | |]; try contradiction.
  cbn [RippleSim.step]. destruct en.
  - apply useFrame_resting; [exact HN | lra | exact Hs].
  - destruct Hs as (Hp & Hi & Hu). unfold RippleSim.useFrame. cbn [negb].
    split; [exact Hp|]. split; [exact Hi|]. exact Hu.
Qed.

(** X7.  Without pointer events the surface stays flat: after any number of
    frames, enabled or not, every cell of the three targets is at height
    0 and the impulse is 0. *)
Theorem no_input_stays_flat (garbage : nat -> texture) (t0 : R)
        (evs : list event) :
  (0 < simSize)%Z -> Forall isFrame evs ->
  impulse (run (init garbage t0) evs) = 0
  /\ forall k i j, (k < 3)%nat -> inGrid simSize i j ->
       height (rts (run (init garbage t0) evs) k) i j = 0.
Proof.
  intros HN Hall.
  assert (H0 : resting simSize 0 (init garbage t0)).
  { split; [|split].
    - unfold rolesOk, init. cbn. apply Permutation_refl.
    - reflexivity.
    - intros k i j Hk _. unfold init. cbn [rts].
      rewrite initClear_cleared by exact Hk.
      unfold height, clearColor, decodeH. lra. }
  assert (Hr : resting simSize 0 (run (init garbage t0) evs)).
  { unfold RippleSim.run. revert H0. generalize (init garbage t0).
    induction Hall as [|ev evs Hev _ IH]; intros s Hs; [exact Hs|].
    cbn [fold_left]. apply IH. now apply step_resting_frame. }
  destruct Hr as (_ & Hi & Hu). split; [exact Hi | exact Hu].
Qed.

End Component.

Lemma refs_witness :
  reachable 0.9 512 pond0 /\ 0 <= impulse pond0 <= 1.25.
Proof.
  assert (H : reachable 0.9 512 pond0) by apply reach_init.
  split; [exact H|].
  exact (proj1 (refs_in_range 0.9 512 pond0 H)).
Defined.

Lemma click_witness :
  reachable 0.9 512 pond0 /\ impulse (onDown true middle 5 pond0) = 1.25.
Proof.
  assert (H : reachable 0.9 512 pond0) by apply reach_init.
  split; [exact H|].
  exact (proj1 (click_splash 0.9 512 pond0 middle 5 H)).
Defined.

Lemma move_witness :
  lastMouse (onMove true middle 16 pond0) = getUvFromEvent middle
  /\ impulse (onMove true middle 32 (onMove true middle 16 pond0)) = 0.
Proof.
  assert (H : lastMouse (onMove true middle 16 pond0) = getUvFromEvent middle)
    by reflexivity.
  split; [exact H|].
  exact (proj1 (proj2 (move_impulse (onMove true middle 16 pond0) middle 32)) H).
Defined.

Lemma exposed_witness :
  reachable 0.9 512 (useFrame 0.9 512 true pond0)
  /\ rippleTex (useFrame 0.9 512 true pond0) = Some 2%nat
  /\ 2%nat = prevIdx (useFrame 0.9 512 true pond0).
Proof.
  assert (H : reachable 0.9 512 (useFrame 0.9 512 true pond0))
    by exact (reach_step 0.9 512 pond0 (Frame true) (reach_init 0.9 512 _ _)).
  assert (Hk : rippleTex (useFrame 0.9 512 true pond0) = Some 2%nat)
    by reflexivity.
  split; [exact H|]. split; [exact Hk|].
  exact (proj1 (exposed_is_current 0.9 512 _ 2 H Hk)).
Defined.

Lemma flat_witness :
  (0 < 512)%Z
  /\ Forall isFrame [Frame true; Frame false; Frame true]
  /\ impulse (run 0.9 512 pond0 [Frame true; Frame false; Frame true]) = 0.
Proof.
  assert (HN : (0 < 512)%Z) by lia.
  assert (Hf : Forall isFrame [Frame true; Frame false; Frame true])
    by (repeat constructor).
  split; [exact HN|]. split; [exact Hf|].
  exact (proj1 (no_input_stays_flat 0.9 512 (fun _ _ _ => 0) 0 _ HN Hf)).
Defined.

End RippleRefsFacts.

(* ================================================================== *)
(** * PondScene: the shape and the end of a transition *)
(* ================================================================== *)

Module PondLevelFacts.
Import PondScene PondFacts PondLevel.

(** The cubic ease is symmetric about the midpoint. *)
Lemma ease_symmetric (p : R) :
  easeInOutCubic (1 - p) = 1 - easeInOutCubic p.
Proof.
  unfold easeInOutCubic. cbn [pow].
  destruct (Rlt_dec (1 - p) 0.5) as [H1 | H1],
           (Rlt_dec p 0.5) as [H2 | H2]; try lra.
  assert (Hp : p = 0.5) by lra. subst p. lra.
Qed.

(** X8.  Half way through its duration a transition is half way between its
    starting level and its target, whatever these are, and the ease of
    the second half mirrors the ease of the first. *)
Theorem midpoint_is_halfway (s : scene) :
  0 < dur s ->
  level (fst (tick (start s + dur s / 2) s)) = (from s + to s) / 2
  /\ raf (fst (tick (start s + dur s / 2) s)) = true
  /\ snd (tick (start s + dur s / 2) s) = []
  /\ forall p, easeInOutCubic (1 - p) = 1 - easeInOutCubic p.
Proof.
  intros Hd.
  rewrite tick_running by lra. cbn [fst snd level raf].
  replace ((start s + dur s / 2 - start s) / dur s) with (1 / 2)
    by (field; lra).
  replace (Rmin 1 (1 / 2)) with (1 / 2)
    by (unfold Rmin; destruct Rle_dec; lra).
  rewrite ease_half. repeat split; try lra. apply ease_symmetric.
Qed.

Lemma target_unit (ph : PondPhase) : 0 <= target ph <= 1.
Proof. destruct ph; cbn; lra. Qed.

Lemma mount_levelOk (ph : PondPhase) (cb : option nat) (now : R) :
  levelOk (mount ph cb now).
Proof.
  unfold levelOk, mount. cbn [level from levelRef to dur phase].
  destruct ph; repeat split; lra.
Qed.

Lemma tick_levelOk (now : R) (s : scene) :
  levelOk s -> start s <= now -> levelOk (fst (tick now s)).
Proof.
  intros (Hl & Hf & Hr & Ht & Hd) Hnow.
  assert (Hdur : 0 < dur s) by (rewrite Hd; apply duration_pos).
  pose proof (target_unit (phase s)) as Htg. rewrite <- Ht in Htg.
  pose proof (eased_range (start s) (dur s) now Hdur Hnow) as He.
  unfold eased in He. unfold tick.
  destruct Rlt_dec; unfold levelOk; cbn [fst level from levelRef to dur phase];
    repeat split; try assumption; try lra; nra.
Qed.

(** X9.  The level stays within [0, 1]: a mounted scene starts there, and
    every render and every animation frame that is on time keeps it
    there. *)
Theorem level_stays_in_unit (s s' : scene) (ev : event) :
  levelOk s -> onTime s ev -> fst (step (Some s) ev) = Some s' ->
  0 <= level s' <= 1 /\ levelOk s'
  /\ forall ph cb now, levelOk (mount ph cb now).
Proof.
  intros Hs Hev Hst.
  assert (Hok : levelOk s').
  { destruct ev as [ph cb now | now]; cbn [step] in Hst.
    - assert (Hsp : levelOk (setProps ph cb now s)).
      { destruct Hs as (Hl & Hf & Hr & Ht & Hd). unfold setProps.
        destruct (_ && _); unfold levelOk;
          cbn [level from levelRef to dur phase];
          repeat split; try assumption; try lra. }
      destruct ph; cbn in Hst; try discriminate;
        injection Hst as <-; exact Hsp.
    - destruct (raf s); cbn [fst] in Hst; injection Hst as <-.
      + now apply tick_levelOk.
      + exact Hs. }
  split; [apply Hok|]. split; [exact Hok|]. apply mount_levelOk.
Qed.

(** X10.  The progress of a tick is clamped above but not below: a frame
    whose timestamp is before the recorded start moves the level away
    from the target, out of the interval between start level and
    target. *)
Theorem early_frame_overshoots (s : scene) (now : R) :
  0 < dur s -> now < start s ->
  (from s < to s -> level (fst (tick now s)) < from s)
  /\ (to s < from s -> from s < level (fst (tick now s)))
  /\ level (fst (tick now s))
     = from s + (to s - from s) * (4 * ((now - start s) / dur s) ^ 3).
Proof.
  intros Hd Hnow.
  assert (Hq : (now - start s) / dur s < 0).
  { unfold Rdiv. assert (0 < / dur s) by (apply Rinv_0_lt_compat, Hd). nra. }
  rewrite tick_running by lra. cbn [fst level].
  replace (Rmin 1 ((now - start s) / dur s)) with ((now - start s) / dur s)
    by (unfold Rmin; destruct Rle_dec; lra).
  set (p := (now - start s) / dur s) in *.
  assert (He : easeInOutCubic p = 4 * p ^ 3).
  { unfold easeInOutCubic. destruct Rlt_dec; [cbn [pow]; ring | lra]. }
  rewrite He.
  assert (Hc : p ^ 3 < 0).
  { cbn [pow]. assert (0 < p * p) by nra. nra. }
  repeat split; try intros H; try nra.
Qed.

Lemma run_frames_final (ts : list R) :
  forall s, 0 < dur s -> raf s = true ->
    Exists (fun t => start s + dur s <= t) ts ->
    exists s', fst (run (Some s) (frames ts)) = Some s'
               /\ level s' = to s /\ raf s' = false
               /\ phase s' = phase s.
Proof.
  induction ts as [|t ts IH]; intros s Hd Hr Hex.
  - inversion Hex.
  - cbn [frames map run step]. rewrite Hr.
    change (map AnimationFrame ts) with (frames ts).
    destruct (Rlt_dec t (start s + dur s)) as [Hlt | Hge].
    + rewrite (tick_running t s Hd Hlt). cbn [fst snd].
      assert (Hex' : Exists (fun t => start s + dur s <= t) ts).
      { inversion Hex; subst; [lra | assumption]. }
      match goal with |- context [run (Some ?s1) _] =>
        destruct (IH s1 Hd eq_refl Hex') as (s' & H1 & H2 & H3 & H4);
        destruct (run (Some s1) (frames ts)) as [st2 c2] end.
      cbn [fst] in *. exists s'. auto.
    + rewrite (tick_done t s Hd) by lra. cbn [fst snd].
      rewrite run_frames_idle by reflexivity. cbn [fst].
      eexists. split; [reflexivity|]. cbn. auto.
Qed.

(** X11.  Every transition ends: once a frame reaches the end of the duration
    the level is exactly the target of the phase (1 for filling and on,
    0 for draining) and no further frame is requested, whatever frames
    came before or come after. *)
Theorem transition_reaches_target (s : scene) (ts : list R) :
  reachable (Some s) -> raf s = true ->
  Exists (fun t => start s + duration (phase s) <= t) ts ->
  exists s', fst (run (Some s) (frames ts)) = Some s'
             /\ level s' = target (phase s) /\ raf s' = false.
Proof.
  intros Hr Hraf Hex.
  destruct (reachable_wf _ Hr s eq_refl) as (_ & Hto & Hdur & _).
  assert (Hd : 0 < dur s) by (rewrite Hdur; apply duration_pos).
  rewrite <- Hdur in Hex.
  destruct (run_frames_final ts s Hd Hraf Hex) as (s' & H1 & H2 & H3 & _).
  exists s'. rewrite <- Hto. auto.
Qed.

(** X12.  [onDrained] is among the dependencies of the level effect: when a
    drain has completed but the scene is rendered again in phase
    [draining] with a different callback, the effect runs once more
    (from level 0 to 0) and the new callback is invoked 500 ms later. *)
Theorem new_callback_fires_again
        (s : scene) (f g : nat) (t1 now t2 : R) :
  reachable (Some s) -> phase s = draining -> raf s = true ->
  onDrained s = Some f -> Nat.eqb g f = false ->
  start s + 500 <= t1 -> now + 500 <= t2 ->
  snd (run (Some s) [AnimationFrame t1;
                     Render draining (Some g) now;
                     AnimationFrame t2]) = [f; g].
Proof.
  intros Hr Hph Hraf Hcb Hg Ht1 Ht2.
  destruct (reachable_wf _ Hr s eq_refl) as (Href & Hto & Hdur & Hoff).
  assert (Hd : dur s = 500) by (rewrite Hdur, Hph; reflexivity).
  cbn [run step]. rewrite Hraf.
  rewrite (tick_done t1 s) by lra. cbn [fst snd].
  rewrite (completion_draining s f) by (repeat split; assumption).
  unfold setProps. cbn [phase onDrained]. rewrite Hph, Hcb.
  cbn [PondPhase_eqb callback_eqb andb]. rewrite Hg. cbn [andb raf].
  rewrite tick_done by (cbn; lra). cbn [snd].
  unfold completion. cbn [phase to onDrained PondPhase_eqb target].
  destruct Req_dec_T; [reflexivity | contradiction].
Qed.

Lemma midpoint_witness :
  0 < dur lateMount
  /\ level (fst (tick (start lateMount + dur lateMount / 2) lateMount))
     = (from lateMount + to lateMount) / 2.
Proof.
  assert (H : 0 < dur lateMount) by (cbn; lra).
  split; [exact H|].
  exact (proj1 (midpoint_is_halfway lateMount H)).
Defined.

Lemma level_unit_witness :
  levelOk lateMount /\ onTime lateMount (AnimationFrame 300)
  /\ 0 <= level (fst (tick 300 lateMount)) <= 1.
Proof.
  assert (H1 : levelOk lateMount) by apply mount_levelOk.
  assert (H2 : onTime lateMount (AnimationFrame 300)) by (cbn; lra).
  split; [exact H1|]. split; [exact H2|].
  exact (proj1 (level_stays_in_unit lateMount _ (AnimationFrame 300)
                  H1 H2 eq_refl)).
Defined.

Lemma early_frame_witness :
  0 < dur lateMount /\ 90 < start lateMount
  /\ level (fst (tick 90 lateMount)) < from lateMount.
Proof.
  assert (H1 : 0 < dur lateMount) by (cbn; lra).
  assert (H2 : 90 < start lateMount) by (cbn; lra).
  assert (H3 : from lateMount < to lateMount) by (cbn; lra).
  split; [exact H1|]. split; [exact H2|].
  exact (proj1 (early_frame_overshoots lateMount 90 H1 H2) H3).
Defined.

Lemma transition_witness :
  reachable (Some startedDraining)
  /\ exists s', fst (run (Some startedDraining) (frames [1200; 1600]))
                = Some s'
                /\ level s' = target (phase startedDraining)
                /\ raf s' = false.
Proof.
  assert (Hr : reachable (Some startedDraining)).
  { exact (reach_step _ (Render draining (Some 7%nat) 1000)
             (reach_step None (Render on (Some 7%nat) 0) reach_unmounted)). }
  split; [exact Hr|].
  apply (transition_reaches_target startedDraining [1200; 1600] Hr eq_refl).
  right. left. cbn. lra.
Defined.

Lemma new_callback_witness :
  reachable (Some startedDraining)
  /\ snd (run (Some startedDraining)
              [AnimationFrame 1500; Render draining (Some 8%nat) 2000;
               AnimationFrame 2500]) = [7%nat; 8%nat].
Proof.
  assert (Hr : reachable (Some startedDraining)).
  { exact (reach_step _ (Render draining (Some 7%nat) 1000)
             (reach_step None (Render on (Some 7%nat) 0) reach_unmounted)). }
  split; [exact Hr|].
  apply (new_callback_fires_again startedDraining 7 8 1500 2000 2500 Hr);
    try reflexivity; cbn; lra.
Defined.

End PondLevelFacts.

(* ================================================================== *)
(** * LeafSystem: culling, ids, drift, spawn pacing *)
(* ================================================================== *)

Module LeafInvFacts.
Import Glsl LeafSystem LeafFacts LeafInv.

Lemma lerp_between (a b t : R) :
  a <= b -> 0 <= t <= 1 -> a <= lerp a b t <= b.
Proof. intros Hab Ht. unfold lerp. split; nra. Qed.

Lemma NoDup_map_filter (A B : Type) (g : A -> B) (f : A -> bool)
      (l : list A) :
  NoDup (map g l) -> NoDup (map g (filter f l)).
Proof.
  induction l as [|a l IH]; intros H; [exact H|].
  cbn [map] in H. inversion H as [|b l' Hn Hd]; subst.
  cbn [filter]. destruct (f a); [|now apply IH].
  cbn [map]. constructor; [|now apply IH].
  intros Hin. apply Hn. apply in_map_iff in Hin.
  destruct Hin as (y0 & Hy & Hf). apply filter_In in Hf.
  apply in_map_iff. exists y0. tauto.
Qed.

Lemma Forall_filter_keep (A : Type) (P : A -> Prop) (f : A -> bool)
      (l : list A) :
  Forall P l -> Forall P (filter f l).
Proof.
  intros H. apply Forall_forall. intros a Ha.
  apply filter_In in Ha. rewrite Forall_forall in H. now apply H.
Qed.

Section Component.

Variable maxLeaves : nat.
Variable spawnEvery : R * R.
Variable random : nat -> R.

Local Abbreviation spawnLeaf := (spawnLeaf maxLeaves random).
Local Abbreviation firstSpawn := (firstSpawn maxLeaves random).
Local Abbreviation timedSpawn := (timedSpawn maxLeaves spawnEvery random).
Local Abbreviation useFrame := (useFrame maxLeaves spawnEvery random).
Local Abbreviation step := (step maxLeaves spawnEvery random).
Local Abbreviation run := (run maxLeaves spawnEvery random).

(** X13.  After an enabled frame every leaf left in the list passes the cull
    test of that frame's viewport: it has not passed the right edge by
    more than 0.8 and is within 0.8 of the top and bottom edges. *)
Theorem culled_leaves_visible (now dt w h : R) (st : state) :
  Forall (visible w h) (leaves (useFrame true true now dt w h st)).
Proof.
  unfold LeafSystem.useFrame. cbn [negb orb leaves]. cbv zeta.
  apply Forall_forall. intros l Hl. apply filter_In in Hl.
  destruct Hl as [_ Hon]. unfold onscreen in Hon. cbv zeta in Hon.
  unfold visible.
  destruct (Rlt_dec (x l) (w / 2 + 0.8)); [|discriminate].
  destruct (Rlt_dec (- h / 2 - 0.8) (y l)); [|discriminate].
  destruct (Rlt_dec (y l) (h / 2 + 0.8)); [|discriminate].
  lra.
Qed.

(** ** Ids *)

Lemma spawnLeaf_idsOk (w h : R) (st : state) :
  idsOk st -> idsOk (spawnLeaf w h st).
Proof.
  intros [Hnd Hlt]. unfold LeafSystem.spawnLeaf.
  destruct (_ && _); [split; assumption|].
  unfold idsOk. cbn [leaves idRef]. split.
  - rewrite map_app. cbn [map id].
    apply NoDup_app.
    + exact Hnd.
    + repeat constructor. intros [].
    + intros a Ha [Hb | []]. subst a.
      apply in_map_iff in Ha. destruct Ha as (l & Hl & Hin).
      rewrite Forall_forall in Hlt. specialize (Hlt l Hin). lia.
  - apply Forall_app. split.
    + eapply Forall_impl; [|exact Hlt]. cbn. intros; lia.
    + repeat constructor.
Qed.

Lemma retime_idsOk (st : state) (t : R) (d : nat) :
  idsOk st ->
  idsOk {| leaves := leaves st; idRef := idRef st; nextSpawnAt := t;
           meshCount := meshCount st; draws := d |}.
Proof. intros H. exact H. Qed.

Lemma useFrame_idsOk (en rd : bool) (now dt w h : R) (st : state) :
  idsOk st -> idsOk (useFrame en rd now dt w h st).
Proof.
  intros Hst. unfold LeafSystem.useFrame. cbv zeta.
  destruct (negb en || negb rd); [exact Hst|].
  assert (H1 : idsOk (firstSpawn now w h st)).
  { unfold LeafSystem.firstSpawn. destruct Req_dec_T; [|exact Hst].
    cbv zeta. destruct (_ =? _)%nat.
    - apply spawnLeaf_idsOk. now apply retime_idsOk.
    - now apply retime_idsOk. }
  assert (H2 : idsOk (timedSpawn now w h (firstSpawn now w h st))).
  { unfold LeafSystem.timedSpawn. destruct Rle_dec; [|exact H1].
    destruct (_ <? _)%nat; [|exact H1]. cbv zeta.
    apply (retime_idsOk (spawnLeaf w h (firstSpawn now w h st))).
    now apply spawnLeaf_idsOk. }
  destruct H2 as [Hnd Hlt]. unfold idsOk. cbn [leaves idRef]. split.
  - apply NoDup_map_filter. rewrite map_map. cbn [id move]. exact Hnd.
  - apply Forall_filter_keep. apply Forall_map.
    eapply Forall_impl; [|exact Hlt]. cbn. auto.
Qed.

(** X14.  The leaves in the list always carry pairwise distinct ids, all
    smaller than the next id to be handed out, across spawns, culls and
    resets. *)
Theorem leaf_ids_distinct (evs : list event) :
  NoDup (map id (leaves (run (init maxLeaves) evs)))
  /\ Forall (fun l => (id l < idRef (run (init maxLeaves) evs))%nat)
            (leaves (run (init maxLeaves) evs)).
Proof.
  assert (H : forall st, idsOk st -> idsOk (run st evs)).
  { induction evs as [|ev evs IH]; intros st Hst; [exact Hst|].
    cbn. apply IH. destruct ev as [en rd now dt w h | en];
      cbn [LeafSystem.step].
    - now apply useFrame_idsOk.
    - unfold enabledEffect. destruct en; [exact Hst|].
      split; cbn [leaves map]; constructor. }
  apply H. split; cbn; constructor.
Qed.

(** ** Shape of the leaves *)

Lemma spawnLeaf_shape (w h : R) (st : state) :
  randomOk random -> spawnedShape st -> spawnedShape (spawnLeaf w h st).
Proof.
  intros Hrand Hst. unfold LeafSystem.spawnLeaf.
  destruct (_ && _); [exact Hst|].
  unfold spawnedShape. cbn [leaves]. apply Forall_app. split; [exact Hst|].
  constructor; [|constructor]. cbn [vx s].
  split; (apply lerp_between; [lra | apply Hrand]).
Qed.

Lemma useFrame_shape (en rd : bool) (now dt w h : R) (st : state) :
  randomOk random -> spawnedShape st ->
  spawnedShape (useFrame en rd now dt w h st).
Proof.
  intros Hrand Hst. unfold LeafSystem.useFrame. cbv zeta.
  destruct (negb en || negb rd); [exact Hst|].
  assert (H1 : spawnedShape (firstSpawn now w h st)).
  { unfold LeafSystem.firstSpawn. destruct Req_dec_T; [|exact Hst].
    cbv zeta. destruct (_ =? _)%nat; [|exact Hst].
    apply spawnLeaf_shape; [exact Hrand | exact Hst]. }
  assert (H2 : spawnedShape (timedSpawn now w h (firstSpawn now w h st))).
  { unfold LeafSystem.timedSpawn. destruct Rle_dec; [|exact H1].
    destruct (_ <? _)%nat; [|exact H1]. cbv zeta.
    unfold spawnedShape. cbn [leaves].
    apply spawnLeaf_shape; [exact Hrand | exact H1]. }
  unfold spawnedShape in *. cbn [leaves].
  apply Forall_filter_keep. apply Forall_map.
  eapply Forall_impl; [|exact H2]. cbn. auto.
Qed.

(** X15.  With [Math.random()] in [0, 1], every leaf in the list keeps the
    drift velocity (0.10 to 0.22) and the scale (0.13 to 0.26) it was
    spawned with, so a frame with [dt >= 0] never moves a leaf to the
    left. *)
Theorem leaves_drift_right (evs : list event) :
  randomOk random ->
  Forall (fun l => 0.10 <= vx l <= 0.22 /\ 0.13 <= s l <= 0.26
                   /\ forall now dt, 0 <= dt -> x l <= x (move now dt l))
         (leaves (run (init maxLeaves) evs)).
Proof.
  intros Hrand.
  assert (H : forall st, spawnedShape st -> spawnedShape (run st evs)).
  { induction evs as [|ev evs IH]; intros st Hst; [exact Hst|].
    cbn. apply IH. destruct ev as [en rd now dt w h | en];
      cbn [LeafSystem.step].
    - now apply useFrame_shape.
    - unfold enabledEffect. destruct en; [exact Hst|]. constructor. }
  assert (H0 : spawnedShape (run (init maxLeaves) evs))
    by (apply H; constructor).
  eapply Forall_impl; [|exact H0]. cbn. intros l [Hv Hs].
  repeat split; try lra. intros now dt Hdt. nra.
Qed.

(** ** Spawn pacing *)

Lemma spawnLeaf_fields (w h : R) (st : state) :
  nextSpawnAt (spawnLeaf w h st) = nextSpawnAt st.
Proof. unfold LeafSystem.spawnLeaf. destruct (_ && _); reflexivity. Qed.

(** X16.  When [Math.random()] is not negative a frame adds at most one leaf
    to the list: the forced first spawn arms the timer after the frame's
    time, so the timed spawn cannot follow in the same frame. *)
Theorem one_leaf_per_frame (en rd : bool) (now dt w h : R) (st : state) :
  (forall n, 0 <= random n) ->
  (Datatypes.length (leaves (useFrame en rd now dt w h st))
   <= S (Datatypes.length (leaves st)))%nat.
Proof.
  intros Hrand. unfold LeafSystem.useFrame. cbv zeta.
  destruct (negb en || negb rd); [lia|]. cbn [leaves].
  eapply Nat.le_trans; [apply filter_length_le|]. rewrite length_map.
  unfold LeafSystem.firstSpawn.
  destruct (Req_dec_T (nextSpawnAt st) 0) as [H0 | H0]; cbv zeta.
  - assert (Hno : forall st1,
               nextSpawnAt st1 = now + lerp 0.2 0.8 (random (draws st)) ->
               timedSpawn now w h st1 = st1).
    { intros st1 Hst1. unfold LeafSystem.timedSpawn. rewrite Hst1.
      destruct Rle_dec as [Hle | _]; [|reflexivity].
      pose proof (Hrand (draws st)). unfold lerp in Hle. lra. }
    cbn [leaves]. destruct (_ =? _)%nat.
    + rewrite Hno by (now rewrite spawnLeaf_fields).
      match goal with |- context [LeafSystem.spawnLeaf _ _ w h ?s1] =>
        pose proof (spawnLeaf_length maxLeaves random w h s1) as Hs end.
      cbn [leaves] in Hs. exact Hs.
    + rewrite Hno by reflexivity. cbn [leaves]. lia.
  - unfold LeafSystem.timedSpawn. destruct Rle_dec; [|lia].
    destruct (_ <? _)%nat; [|lia]. cbn [leaves].
    apply spawnLeaf_length.
Qed.

(** X17.  The anti-crowding rule: when a call of [spawnLeaf] has added a leaf
    and the population has reached 70% of the cap, a second call right
    after it adds nothing, because the new leaf is still near the spawn
    edge. *)
Theorem no_crowding (w h : R) (st : state) :
  Datatypes.length (leaves (spawnLeaf w h st)) = S (Datatypes.length (leaves st)) ->
  (Nat.div (maxLeaves * 7) 10 <= S (Datatypes.length (leaves st)))%nat ->
  spawnLeaf w h (spawnLeaf w h st) = spawnLeaf w h st.
Proof.
  intros Hgrew Hcap.
  assert (Hex : existsb (tooClose w) (leaves (spawnLeaf w h st)) = true).
  { revert Hgrew. unfold LeafSystem.spawnLeaf.
    destruct (_ && _); cbn [leaves]; [lia|]. intros _.
    rewrite existsb_app. apply orb_true_iff. right.
    cbn [existsb]. unfold tooClose. cbn [x].
    destruct Rlt_dec; [reflexivity | lra]. }
  unfold LeafSystem.spawnLeaf at 1. rewrite Hex, Hgrew.
  apply Nat.leb_le in Hcap. rewrite Hcap. reflexivity.
Qed.

(** X18.  Disabling the layer empties the list and resets the timer but leaves
    the instance count of the mesh as it was; the first enabled frame
    after it arms the timer with the short delay and forces exactly one
    leaf. *)
Theorem reset_then_respawn (now w h : R) (st : state) :
  leaves (enabledEffect false st) = []
  /\ nextSpawnAt (enabledEffect false st) = 0
  /\ meshCount (enabledEffect false st) = meshCount st
  /\ Datatypes.length (leaves (firstSpawn now w h (enabledEffect false st))) = 1%nat
  /\ nextSpawnAt (firstSpawn now w h (enabledEffect false st))
     = now + lerp 0.2 0.8 (random (draws st)).
Proof.
  unfold enabledEffect. cbn [leaves nextSpawnAt meshCount].
  repeat split.
  - unfold LeafSystem.firstSpawn. cbn [nextSpawnAt].
    destruct Req_dec_T as [_ | Hn]; [|contradiction].
    cbv zeta. cbn [leaves Datatypes.length Nat.eqb].
    unfold LeafSystem.spawnLeaf. cbn [leaves existsb].
    rewrite andb_false_r. cbn [leaves app Datatypes.length]. reflexivity.
  - unfold LeafSystem.firstSpawn. cbn [nextSpawnAt].
    destruct Req_dec_T as [_ | Hn]; [|contradiction].
    cbv zeta. cbn [leaves Datatypes.length Nat.eqb draws].
    rewrite spawnLeaf_fields. reflexivity.
Qed.

(** X19.  When the timer is due and the population is under the cap, the
    timer is armed again between [spawnEvery[0]] and [spawnEvery[1]]
    seconds after the frame's time. *)
Theorem timer_window (now w h : R) (st : state) :
  randomOk random -> fst spawnEvery <= snd spawnEvery ->
  nextSpawnAt st <= now -> (Datatypes.length (leaves st) < maxLeaves)%nat ->
  now + fst spawnEvery <= nextSpawnAt (timedSpawn now w h st)
                       <= now + snd spawnEvery.
Proof.
  intros Hrand Hord Hdue Hlt. unfold LeafSystem.timedSpawn.
  destruct Rle_dec; [|contradiction].
  apply Nat.ltb_lt in Hlt. rewrite Hlt. cbv zeta. cbn [nextSpawnAt].
  match goal with |- context [lerp _ _ (random ?n)] =>
    pose proof (lerp_between (fst spawnEvery) (snd spawnEvery) (random n)
                  Hord (Hrand n)) end.
  lra.
Qed.

End Component.

Lemma evenRandom_ok : randomOk evenRandom.
Proof. intros n. unfold evenRandom. lra. Qed.

Lemma drift_witness :
  randomOk evenRandom
  /\ Forall (fun l => 0.10 <= vx l <= 0.22)
            (leaves (run 9 (2.5, 6.5) evenRandom (init 9) oneFrame)).
Proof.
  split; [exact evenRandom_ok|].
  eapply Forall_impl;
    [|exact (leaves_drift_right 9 (2.5, 6.5) evenRandom oneFrame
               evenRandom_ok)].
  cbn. intros l H. apply H.
Defined.

Lemma one_leaf_witness :
  (Datatypes.length
     (leaves (useFrame 9 (2.5, 6.5)%R evenRandom true true
                       0%R 0.016%R 10%R 6%R (init 9))) <= 1)%nat.
Proof.
  assert (H : forall n, 0 <= evenRandom n)
    by (intros n; apply evenRandom_ok).
  exact (one_leaf_per_frame 9 (2.5, 6.5) evenRandom true true 0 0.016 10 6
           (init 9) H).
Defined.

Lemma no_crowding_witness :
  Datatypes.length (leaves (spawnLeaf 1 evenRandom 10 6 (init 1))) = 1%nat
  /\ spawnLeaf 1 evenRandom 10 6 (spawnLeaf 1 evenRandom 10 6 (init 1))
     = spawnLeaf 1 evenRandom 10 6 (init 1).
Proof.
  assert (H1 : Datatypes.length
                 (leaves (spawnLeaf 1 evenRandom 10 6 (init 1)))
               = S (Datatypes.length (leaves (init 1)))) by reflexivity.
  assert (H2 : (Nat.div (1 * 7) 10
                <= S (Datatypes.length (leaves (init 1))))%nat)
    by (cbn; lia).
  split; [exact H1|].
  exact (no_crowding 1 evenRandom 10 6 (init 1) H1 H2).
Defined.

Lemma timer_witness :
  randomOk evenRandom
  /\ 1 + 2.5 <= nextSpawnAt (timedSpawn 9 (2.5, 6.5) evenRandom 1 10 6
                                        (init 9))
             <= 1 + 6.5.
Proof.
  assert (H2 : fst (2.5, 6.5) <= snd (2.5, 6.5)) by (cbn; lra).
  assert (H3 : nextSpawnAt (init 9) <= 1) by (cbn; lra).
  assert (H4 : (Datatypes.length (leaves (init 9)) < 9)%nat) by (cbn; lia).
  split; [exact evenRandom_ok|].
  exact (timer_window 9 (2.5, 6.5) evenRandom 1 10 6 (init 9)
           evenRandom_ok H2 H3 H4).
Defined.

End LeafInvFacts.

(* ================================================================== *)
(** * useDataUrlTexture: no texture is leaked *)
(* ================================================================== *)

Module SceneTextureFacts.
Import SceneTexture.

Lemma option_eq_dec (a b : option nat) : {a = b} + {a <> b}.
Proof. decide equality. apply Nat.eq_dec. Qed.

Lemma count_snoc (l : list nat) (a t : nat) :
  count_occ Nat.eq_dec (l ++ [a]) t
  = (count_occ Nat.eq_dec l t + (if Nat.eq_dec a t then 1 else 0))%nat.
Proof.
  rewrite count_occ_app. cbn [count_occ].
  destruct (Nat.eq_dec a t); reflexivity.
Qed.

Lemma mount_tidy (u : option String.string) : tidy (mount u).
Proof.
  unfold mount, effect. destruct (falsy u) eqn:Hf.
  - split; [reflexivity|]. split; [cbn; tauto|].
    intros t. unfold disposedTimes. cbn [tex loaded disposals disposeOpt].
    split; [discriminate|]. split; [intros _ Hlt; lia | reflexivity].
  - split; [reflexivity|]. split.
    + cbn [tex dataUrl]. rewrite Hf. split; discriminate.
    + intros t. unfold disposedTimes. cbn [tex loaded disposals disposeOpt].
      split; [|split].
      * intros Ht. injection Ht as <-. cbn. lia.
      * intros Hn Hlt. assert (t = 0%nat) by lia. subst. congruence.
      * reflexivity.
Qed.

(** What a texture's count is in a tidy hook, by cases. *)
Lemma tidy_counts (h : hook) (t : nat) :
  tidy h ->
  (tex h = Some t /\ (t < loaded h)%nat /\ disposedTimes h t = 0%nat)
  \/ (tex h <> Some t /\ (t < loaded h)%nat /\ disposedTimes h t = 2%nat)
  \/ (tex h <> Some t /\ (loaded h <= t)%nat /\ disposedTimes h t = 0%nat).
Proof.
  intros (_ & _ & Hall). destruct (Hall t) as (H1 & H2 & H3).
  destruct (tex h) as [p|] eqn:Hp.
  - destruct (Nat.eq_dec p t) as [-> | Hne].
    + left. destruct (H1 eq_refl). auto.
    + assert (Hn : Some p <> Some t) by congruence.
      destruct (Nat.lt_ge_cases t (loaded h)); [right; left | right; right];
        auto.
  - assert (Hn : @None nat <> Some t) by discriminate.
    destruct (Nat.lt_ge_cases t (loaded h)); [right; left | right; right];
      auto.
Qed.

Lemma render_tidy (u : option String.string) (h : hook) :
  tidy h -> tidy (render u h).
Proof.
  intros Hh. pose proof Hh as (Hown & Hnull & _). unfold render.
  destruct (sameUrl u (dataUrl h)); [exact Hh|].
  assert (Hcount : forall t,
            count_occ Nat.eq_dec
              (disposeOpt (tex h) (disposeOpt (owned h) (disposals h))) t
            = (disposedTimes h t
               + (if option_eq_dec (tex h) (Some t) then 2 else 0))%nat).
  { intros t. rewrite <- Hown. unfold disposedTimes.
    destruct (tex h) as [p|]; cbn [disposeOpt].
    - rewrite !count_snoc.
      destruct (Nat.eq_dec p t) as [-> | Hne];
        destruct option_eq_dec as [He | He]; try congruence; lia.
    - destruct option_eq_dec; [discriminate | lia]. }
  unfold effect, cleanup. cbn [tex owned loaded disposals dataUrl].
  destruct (falsy u) eqn:Hf.
  - split; [reflexivity|]. split; [cbn; tauto|].
    intros t. unfold disposedTimes at 1 2 3. cbn [tex loaded disposals].
    rewrite Hcount.
    destruct (tidy_counts h t Hh) as [(E & L & C) | [(E & L & C) | (E & L & C)]];
      destruct option_eq_dec; try contradiction;
      (split; [discriminate|]; split; intros; lia).
  - split; [reflexivity|]. split.
    + cbn [tex dataUrl]. rewrite Hf. split; discriminate.
    + intros t. unfold disposedTimes at 1 2 3. cbn [tex loaded disposals].
      rewrite Hcount.
      destruct (tidy_counts h t Hh) as [(E & L & C) | [(E & L & C) | (E & L & C)]];
        destruct option_eq_dec; try contradiction;
        (split; [intros Ht; injection Ht as Ht; lia|];
         split; [intros Hn Hlt;
                 assert (t <> loaded h) by congruence; lia
                | intros; lia]).
Qed.

Lemma renders_tidy (us : list (option String.string)) :
  forall h, tidy h -> tidy (renders us h).
Proof.
  induction us as [|u us IH]; intros h Hh; [exact Hh|].
  cbn. apply IH. now apply render_tidy.
Qed.

Lemma sameUrl_eq (u v : option String.string) :
  sameUrl u v = true -> u = v.
Proof.
  destruct u as [a|], v as [b|]; cbn; try discriminate; try reflexivity.
  destruct String.string_dec; [congruence | discriminate].
Qed.

Lemma render_dataUrl (u : option String.string) (h : hook) :
  dataUrl (render u h) = u.
Proof.
  unfold render. destruct (sameUrl u (dataUrl h)) eqn:E.
  - symmetry. now apply sameUrl_eq.
  - unfold effect. destruct (falsy u); reflexivity.
Qed.

Lemma last_cons_default (A : Type) (a : A) (l : list A) (d d' : A) :
  last (a :: l) d = last (a :: l) d'.
Proof.
  revert a. induction l as [|b l IH]; intros a; [reflexivity|].
  change (last (b :: l) d = last (b :: l) d'). apply IH.
Qed.

Lemma renders_dataUrl (us : list (option String.string)) :
  forall h, dataUrl (renders us h) = last us (dataUrl h).
Proof.
  induction us as [|u us IH]; intros h; [reflexivity|].
  cbn [renders fold_left]. change (fold_left _ us ?x) with (renders us x).
  rewrite IH, render_dataUrl. destruct us as [|o us]; [reflexivity|].
  change (last (u :: o :: us) (dataUrl h)) with (last (o :: us) (dataUrl h)).
  apply last_cons_default.
Qed.

Lemma mount_dataUrl (u : option String.string) : dataUrl (mount u) = u.
Proof. unfold mount, effect. destruct (falsy u); reflexivity. Qed.

(** X20.  No texture is leaked: after any sequence of renders, every texture
    the hook ever created has been disposed, except the one it returns,
    which has not; the hook returns a texture exactly when the last
    [dataUrl] is neither null nor empty; and once the component is
    unmounted every texture created has been disposed. *)
Theorem no_texture_leak (u : option String.string)
        (us : list (option String.string)) (t : nat) :
  (t < loaded (renders us (mount u)))%nat ->
  ((tex (renders us (mount u)) = Some t
    /\ disposedTimes (renders us (mount u)) t = 0%nat)
   \/ (tex (renders us (mount u)) <> Some t
       /\ (0 < disposedTimes (renders us (mount u)) t)%nat))
  /\ (0 < disposedTimes (unmount (renders us (mount u))) t)%nat
  /\ (tex (renders us (mount u)) = None <-> falsy (last us u) = true).
Proof.
  intros Hlt.
  pose proof (renders_tidy us (mount u) (mount_tidy u)) as Hh.
  set (h := renders us (mount u)) in *.
  pose proof Hh as (Hown & Hnull & _).
  assert (Hu : dataUrl h = last us u)
    by (unfold h; now rewrite renders_dataUrl, mount_dataUrl).
  rewrite <- Hu.
  destruct (tidy_counts h t Hh) as [(E & L & C) | [(E & L & C) | (E & L & C)]];
    try lia.
  - split; [left; auto|]. split; [|exact Hnull].
    unfold unmount, cleanup, disposedTimes. cbn [disposals].
    rewrite <- Hown, E. cbn [disposeOpt]. rewrite count_snoc.
    destruct Nat.eq_dec; [lia | congruence].
  - split; [right; split; [exact E | lia]|]. split; [|exact Hnull].
    unfold unmount, cleanup. unfold disposedTimes in *. cbn [disposals].
    destruct (owned h); cbn [disposeOpt]; [rewrite count_snoc|]; lia.
Qed.

(** X21.  Each texture that was replaced or cleared received [dispose()]
    exactly twice, once from the effect's cleanup and once from the
    updater passed to [setTex]; the texture in use when the component
    is unmounted receives it once. *)
Theorem dispose_called_twice (u : option String.string)
        (us : list (option String.string)) (t : nat) :
  (t < loaded (renders us (mount u)))%nat ->
  (tex (renders us (mount u)) <> Some t ->
     disposedTimes (renders us (mount u)) t = 2%nat)
  /\ (tex (renders us (mount u)) = Some t ->
        disposedTimes (unmount (renders us (mount u))) t = 1%nat).
Proof.
  intros Hlt.
  pose proof (renders_tidy us (mount u) (mount_tidy u)) as Hh.
  set (h := renders us (mount u)) in *.
  pose proof Hh as (Hown & _ & _).
  destruct (tidy_counts h t Hh) as [(E & L & C) | [(E & L & C) | (E & L & C)]];
    try lia.
  - split; [intros Hn; contradiction|]. intros _.
    unfold unmount, cleanup, disposedTimes. cbn [disposals].
    rewrite <- Hown, E. cbn [disposeOpt]. rewrite count_snoc.
    unfold disposedTimes in C. rewrite C.
    destruct Nat.eq_dec; [reflexivity | congruence].
  - split; [intros _; exact C | intros Hn; contradiction].
Qed.

Lemma slideshow_loaded : loaded (renders slideshow (mount None)) = 2%nat.
Proof. reflexivity. Qed.

Lemma no_leak_witness :
  (0 < 2)%nat
  /\ (0 < disposedTimes (unmount (renders slideshow (mount None))) 0)%nat.
Proof.
  assert (H : (0 < loaded (renders slideshow (mount None)))%nat)
    by (rewrite slideshow_loaded; lia).
  split; [lia|].
  exact (proj1 (proj2 (no_texture_leak None slideshow 0 H))).
Defined.

Lemma dispose_twice_witness :
  (1 < 2)%nat
  /\ disposedTimes (renders slideshow (mount None)) 1 = 2%nat.
Proof.
  assert (H : (1 < loaded (renders slideshow (mount None)))%nat)
    by (rewrite slideshow_loaded; lia).
  assert (Hn : tex (renders slideshow (mount None)) <> Some 1%nat)
    by (change (@None nat <> Some 1%nat); discriminate).
  split; [lia|].
  exact (proj1 (dispose_called_twice None slideshow 1 H) Hn).
Defined.

End SceneTextureFacts.

(* ================================================================== *)
(** * Bilinear sampling stays between the texels *)
(* ================================================================== *)

Module SamplingFacts.
Import Glsl GlslFacts.

Lemma frac_unit (r : R) : 0 <= r - IZR (Int_part r) < 1.
Proof. destruct (base_Int_part r). lra. Qed.

Lemma blend_between (a b lo hi f : R) :
  0 <= f <= 1 -> lo <= a <= hi -> lo <= b <= hi ->
  lo <= (1 - f) * a + f * b <= hi.
Proof. intros Hf Ha Hb. split; nra. Qed.

(** A sample lies between any two bounds that hold for all texels. *)
Lemma texture2D_between (N : Z) (t : texture) (lo hi : R) (uv : vec2) :
  (0 < N)%Z ->
  (forall i j, (0 <= i < N)%Z -> (0 <= j < N)%Z -> lo <= t i j <= hi) ->
  lo <= texture2D N t uv <= hi.
Proof.
  intros HN Ht. unfold texture2D. cbv zeta.
  pose proof (frac_unit (fst uv * IZR N - 1 / 2)) as Hfx.
  pose proof (frac_unit (snd uv * IZR N - 1 / 2)) as Hfy.
  set (fx := fst uv * IZR N - 1 / 2 - IZR (Int_part (fst uv * IZR N - 1 / 2)))
    in *.
  set (fy := snd uv * IZR N - 1 / 2 - IZR (Int_part (snd uv * IZR N - 1 / 2)))
    in *.
  assert (Hf : forall i j, lo <= texelFetch N t i j <= hi).
  { intros i j. unfold texelFetch. apply Ht; apply edge_range; exact HN. }
  set (i0 := Int_part (fst uv * IZR N - 1 / 2)).
  set (j0 := Int_part (snd uv * IZR N - 1 / 2)).
  pose proof (blend_between _ _ lo hi fx ltac:(lra) (Hf i0 j0)
                (Hf (i0 + 1)%Z j0)) as Hrow0.
  pose proof (blend_between _ _ lo hi fx ltac:(lra) (Hf i0 (j0 + 1)%Z)
                (Hf (i0 + 1)%Z (j0 + 1)%Z)) as Hrow1.
  pose proof (blend_between _ _ lo hi fy ltac:(lra) Hrow0 Hrow1) as H.
  replace ((1 - fx) * (1 - fy) * texelFetch N t i0 j0
           + fx * (1 - fy) * texelFetch N t (i0 + 1) j0
           + (1 - fx) * fy * texelFetch N t i0 (j0 + 1)
           + fx * fy * texelFetch N t (i0 + 1) (j0 + 1))
    with ((1 - fy) * ((1 - fx) * texelFetch N t i0 j0
                      + fx * texelFetch N t (i0 + 1) j0)
          + fy * ((1 - fx) * texelFetch N t i0 (j0 + 1)
                  + fx * texelFetch N t (i0 + 1) (j0 + 1)))
    by ring.
  exact H.
Qed.

End SamplingFacts.

(* ================================================================== *)
(** * WaterPlane: fallbacks and bounds of the fragment colour *)
(* ================================================================== *)

Module WaterLookFacts.
Import Glsl GlslFacts WaterPlane WaterFacts WaterLook SamplingFacts.

(** [main] in terms of its intermediate values. *)
Lemma main_color (u : uniforms) (vUv : vec2) :
  fst (main u vUv)
  = vadd (vadd (vmix (background u vUv) (uTint u) (0.25 + 0.35 * uLevel u))
               (vscale (0.18, 0.26, 0.32) (highlight u vUv)))
         (vscale (0.06, 0.10, 0.14) (edgeGlow u vUv)).
Proof. reflexivity. Qed.

Lemma drift_small (u : uniforms) (p : vec2) : -0.03 <= drift u p <= 0.03.
Proof.
  unfold drift. cbv zeta.
  pose proof (SIN_bound (fst p * 2.5 + uTime u * 0.08)).
  pose proof (SIN_bound (snd p * 2.2 - uTime u * 0.08 * 1.2)).
  lra.
Qed.

Lemma smoothstep_below (e0 e1 x : R) :
  e0 < e1 -> x <= e0 -> smoothstep e0 e1 x = 0.
Proof.
  intros He Hx. unfold smoothstep. cbv zeta.
  assert (Hq : (x - e0) / (e1 - e0) <= 0).
  { unfold Rdiv. assert (0 < / (e1 - e0)) by (apply Rinv_0_lt_compat; lra).
    nra. }
  assert (Hc : clamp ((x - e0) / (e1 - e0)) 0 1 = 0)
    by (unfold clamp, Rmin, Rmax; repeat destruct Rle_dec; lra).
  rewrite Hc. ring.
Qed.

Lemma vadd_zero (a c : vec3) : vadd a (vscale c 0) = a.
Proof.
  destruct a as [[a1 a2] a3], c as [[c1 c2] c3]. cbn.
  f_equal; [f_equal|]; ring.
Qed.

Lemma vmix_same (a : vec3) (t : R) : vmix a a t = a.
Proof.
  destruct a as [[a1 a2] a3]. cbn. unfold mix.
  f_equal; [f_equal|]; ring.
Qed.

Lemma no_ripple_gradient (u : uniforms) (vUv : vec2) :
  uHasRipple u < 0.5 ->
  gradient u vUv = (0, 0) /\ rippleH u vUv = 0 /\ highlight u vUv = 0.
Proof.
  intros H.
  assert (Hg : gradient u vUv = (0, 0)).
  { unfold gradient, rippleGrad. destruct Rlt_dec; [|contradiction].
    cbn [fst snd]. f_equal; ring. }
  split; [exact Hg|]. split.
  - unfold rippleH. destruct Rlt_dec; [reflexivity | contradiction].
  - unfold highlight. rewrite Hg. unfold length. cbn [fst snd].
    replace (0 * 0 + 0 * 0) with 0 by ring. rewrite sqrt_0.
    apply smoothstep_below; lra.
Qed.

(** X22.  Without a ripple texture the height field contributes nothing: the
    surface height is the analytic drift alone, at most 0.03 in absolute
    value, there is no highlight, and the colour is the tinted
    background plus the edge glow. *)
Theorem no_ripple_no_highlight (u : uniforms) (vUv : vec2) :
  uHasRipple u < 0.5 ->
  surfaceH u vUv = drift u (zoomed u vUv)
  /\ -0.03 <= surfaceH u vUv <= 0.03
  /\ highlight u vUv = 0
  /\ fst (main u vUv)
     = vadd (vmix (background u vUv) (uTint u) (0.25 + 0.35 * uLevel u))
            (vscale (0.06, 0.10, 0.14) (edgeGlow u vUv)).
Proof.
  intros H. destruct (no_ripple_gradient u vUv H) as (Hg & Hh & Hl).
  assert (Hs : surfaceH u vUv = drift u (zoomed u vUv))
    by (unfold surfaceH; rewrite Hh; ring).
  split; [exact Hs|]. split; [rewrite Hs; apply drift_small|].
  split; [exact Hl|].
  rewrite main_color, Hl, vadd_zero. reflexivity.
Qed.

(** X23.  Without a background image the background is the tint itself, so
    the blend does not depend on the level any more: the colour is the
    tint plus the highlight and the edge glow. *)
Theorem no_image_flat_tint (u : uniforms) (vUv : vec2) :
  uHasSceneTex u <= 0.5 ->
  background u vUv = uTint u
  /\ fst (main u vUv)
     = vadd (vadd (uTint u) (vscale (0.18, 0.26, 0.32) (highlight u vUv)))
            (vscale (0.06, 0.10, 0.14) (edgeGlow u vUv)).
Proof.
  intros H.
  assert (Hb : background u vUv = uTint u).
  { unfold background. destruct Rlt_dec; [lra | reflexivity]. }
  split; [exact Hb|].
  rewrite main_color, Hb, vmix_same. reflexivity.
Qed.

(** X24.  For a level in [0, 1] the alpha of every pixel lies between 0 and
    0.54: the water is never opaque. *)
Theorem alpha_never_opaque (u : uniforms) (vUv : vec2) :
  0 <= uLevel u <= 1 -> 0 <= snd (main u vUv) <= 0.54.
Proof.
  intros H. rewrite main_alpha. unfold baseAlpha.
  pose proof (vignette_range (distance vUv (0.5, 0.5))). nra.
Qed.

Lemma rippleH_unit (u : uniforms) (uv : vec2) :
  (0 < rippleSimSize u)%Z -> storedUnit (rippleSimSize u) (uRippleTex u) ->
  -1 <= rippleH u uv <= 1.
Proof.
  intros HN Ht. unfold rippleH. destruct Rlt_dec; [lra|].
  pose proof (texture2D_between _ _ 0 1 uv HN Ht) as H.
  unfold decodeH, sampleRipple. lra.
Qed.

Lemma gradient_bound (u : uniforms) (vUv : vec2) :
  (0 < rippleSimSize u)%Z -> storedUnit (rippleSimSize u) (uRippleTex u) ->
  -1.7 <= fst (gradient u vUv) <= 1.7 /\ -1.7 <= snd (gradient u vUv) <= 1.7.
Proof.
  intros HN Ht. unfold gradient, rippleGrad.
  destruct Rlt_dec; cbn [fst snd]; [lra|]. cbv zeta. cbn [fst snd].
  unfold decodeH, sampleRipple.
  repeat match goal with
         | |- context [texture2D ?n ?t ?uv] =>
             let H := fresh "Hs" in
             pose proof (texture2D_between n t 0 1 uv HN Ht) as H;
             generalize dependent (texture2D n t uv); intros
         end.
  lra.
Qed.

(** X25.  The refraction offset of the background sample is bounded by 0.0554
    times the level on each axis, and so vanishes at level 0, for any
    ripple texture whose texels store values in [0, 1]. *)
Theorem refraction_bounded (u : uniforms) (vUv : vec2) :
  0 <= uLevel u <= 1 ->
  (0 < rippleSimSize u)%Z -> storedUnit (rippleSimSize u) (uRippleTex u) ->
  - (0.0554 * uLevel u) <= fst (distortion u vUv) <= 0.0554 * uLevel u
  /\ - (0.0554 * uLevel u) <= snd (distortion u vUv) <= 0.0554 * uLevel u.
Proof.
  intros Hl HN Ht.
  destruct (gradient_bound u vUv HN Ht) as [Hgx Hgy].
  assert (Hh : -0.48 <= surfaceH u vUv <= 0.48).
  { unfold surfaceH. pose proof (drift_small u (zoomed u vUv)).
    pose proof (rippleH_unit u vUv HN Ht). lra. }
  unfold distortion. cbv zeta. cbn [fst snd].
  pose proof (SIN_bound (snd vUv * 6 + uTime u * 0.15)).
  pose proof (SIN_bound (fst vUv * 6 - uTime u * 0.12)).
  set (gx := fst (gradient u vUv)) in *.
  set (gy := snd (gradient u vUv)) in *.
  set (h := surfaceH u vUv) in *.
  set (s1 := sin _) in *. set (s2 := sin _) in *.
  set (L := uLevel u) in *.
  split; split; nra.
Qed.

Lemma no_ripple_witness :
  uHasRipple stillWater < 0.5 /\ highlight stillWater (0.25, 0.75) = 0.
Proof.
  assert (H : uHasRipple stillWater < 0.5) by (cbn; lra).
  split; [exact H|].
  exact (proj1 (proj2 (proj2 (no_ripple_no_highlight stillWater (0.25, 0.75) H)))).
Defined.

Lemma no_image_witness :
  uHasSceneTex stillWater <= 0.5
  /\ background stillWater (0.25, 0.75) = uTint stillWater.
Proof.
  assert (H : uHasSceneTex stillWater <= 0.5) by (cbn; lra).
  split; [exact H|].
  exact (proj1 (no_image_flat_tint stillWater (0.25, 0.75) H)).
Defined.

Lemma alpha_witness :
  0 <= uLevel fullWater <= 1 /\ 0 <= snd (main fullWater (0.5, 0.5)) <= 0.54.
Proof.
  assert (H : 0 <= uLevel fullWater <= 1) by (cbn; lra).
  split; [exact H|].
  exact (alpha_never_opaque fullWater (0.5, 0.5) H).
Defined.

Lemma refraction_witness :
  0 <= uLevel fullWater <= 1
  /\ fst (distortion fullWater (0.5, 0.5)) <= 0.0554 * uLevel fullWater.
Proof.
  assert (H : 0 <= uLevel fullWater <= 1) by (cbn; lra).
  assert (HN : (0 < rippleSimSize fullWater)%Z) by (cbn; lia).
  assert (Ht : storedUnit (rippleSimSize fullWater) (uRippleTex fullWater))
    by (intros i j _ _; cbn; lra).
  split; [exact H|].
  exact (proj2 (proj1 (refraction_bounded fullWater (0.5, 0.5) H HN Ht))).
Defined.

End WaterLookFacts.

(* ================================================================== *)
(** * LeafSystem: how far the vertex shader moves a leaf *)
(* ================================================================== *)

Module LeafShaderFacts.
Import Glsl GlslFacts LeafShader SamplingFacts.

Lemma leaf_sample_unit (N : Z) (viewport : vec2) (t : texture) (uv : vec2) :
  (0 < N)%Z -> WaterLook.storedUnit N t ->
  -1 <= sampleH (leafUniforms N viewport (Some t)) uv <= 1.
Proof.
  intros HN Ht. unfold sampleH, decodeH, leafUniforms.
  cbn [simSize uRippleTex].
  pose proof (texture2D_between N t 0 1 uv HN Ht). lra.
Qed.

(** X26.  The vertex shader samples the ripple texture inside [0.001, 0.999]
    on both axes, wherever the leaf is.  Without a ripple texture it
    leaves the vertex where it is.  With one whose texels store values
    in [0, 1], a vertex of the flat leaf quad is lifted by at most 0.01
    and shifted sideways by at most 0.002 on each axis. *)
Theorem leaf_rides_surface (N : Z) (viewport worldCenter : vec2)
        (ripple : option texture) (px py : R) :
  (0.001 <= fst (rippleUv (leafUniforms N viewport ripple) worldCenter)
         <= 0.999
   /\ 0.001 <= snd (rippleUv (leafUniforms N viewport ripple) worldCenter)
            <= 0.999)
  /\ (forall pz, ripple = None ->
        displace (leafUniforms N viewport ripple) worldCenter (px, py, pz)
        = (px, py, pz))
  /\ (forall t, ripple = Some t -> (0 < N)%Z -> WaterLook.storedUnit N t ->
        -0.01 <= snd (displace (leafUniforms N viewport ripple) worldCenter
                               (px, py, 0)) <= 0.01
        /\ -0.002 <= fst (fst (displace (leafUniforms N viewport ripple)
                                        worldCenter (px, py, 0))) - px
                  <= 0.002
        /\ -0.002 <= snd (fst (displace (leafUniforms N viewport ripple)
                                        worldCenter (px, py, 0))) - py
                  <= 0.002).
Proof.
  split; [|split].
  - unfold rippleUv. cbn [fst snd]. split; apply clamp_range; lra.
  - intros pz ->. unfold displace, rippleAt, leafUniforms.
    cbn [uHasRipple uRide uTilt]. destruct Rlt_dec; [lra|].
    cbn [fst snd]. f_equal; [f_equal|]; ring.
  - intros t -> HN Ht. unfold displace, rippleAt.
    assert (Hf : uHasRipple (leafUniforms N viewport (Some t)) = 1)
      by reflexivity.
    rewrite Hf. destruct Rlt_dec; [|lra]. cbv zeta. cbn [fst snd].
    assert (Hr : uRide (leafUniforms N viewport (Some t)) = 0.010)
      by reflexivity.
    assert (Hti : uTilt (leafUniforms N viewport (Some t)) = 0.10)
      by reflexivity.
    rewrite Hr, Hti.
    repeat match goal with
           | |- context [sampleH ?u ?uv] =>
               let H := fresh "Hs" in
               pose proof (leaf_sample_unit N viewport t uv HN Ht) as H;
               generalize dependent (sampleH u uv); intros
           end.
    repeat split; nra.
Qed.

Lemma leaf_rides_witness :
  (0 < 512)%Z
  /\ -0.01 <= snd (displace (leafUniforms 512 (10, 6) (Some (fun _ _ => 0.5)))
                            (1, 1) (0.5, 0.5, 0)) <= 0.01.
Proof.
  assert (HN : (0 < 512)%Z) by lia.
  assert (Ht : WaterLook.storedUnit 512 (fun _ _ => 0.5))
    by (intros i j _ _; lra).
  split; [exact HN|].
  exact (proj1 (proj2 (proj2 (leaf_rides_surface 512 (10, 6) (1, 1)
                                (Some (fun _ _ => 0.5)) 0.5 0.5))
                      _ eq_refl HN Ht)).
Defined.

End LeafShaderFacts.

(* ================================================================== *)
(** * PondScene: the ripples follow the phase *)
(* ================================================================== *)

Module WiringFacts.
Import Glsl PondScene WaterPlane WaterLook WaterLookFacts Wiring.

(** X27.  The simulator runs in the phases [on] and [filling] only.  In the
    other phases its frame delivers no texture and writes no target, and
    the compositor refreshed with that sees no ripple: no ripple height
    and no highlight.  In [on] and [filling] the compositor is handed
    the simulator's current field. *)
Theorem ripples_follow_phase
        (strength : R) (N : Z) (ph : PondPhase) (s : RippleSim.state)
        (u : uniforms) (dt lv : R) (scene : option (vec2 -> vec3))
        (vUv : vec2) :
  (simEnabled ph = false <-> ph = draining \/ ph = off)
  /\ (simEnabled ph = false ->
      exposedTexture (RippleSim.useFrame strength N (simEnabled ph) s) = None
      /\ RippleSim.rts (RippleSim.useFrame strength N (simEnabled ph) s)
         = RippleSim.rts s
      /\ rippleH (refresh u dt lv scene
                    (exposedTexture
                       (RippleSim.useFrame strength N (simEnabled ph) s)))
                 vUv = 0
      /\ highlight (refresh u dt lv scene
                      (exposedTexture
                         (RippleSim.useFrame strength N (simEnabled ph) s)))
                   vUv = 0)
  /\ (simEnabled ph = true ->
      exposedTexture (RippleSim.useFrame strength N (simEnabled ph) s)
      = Some (RippleSim.current
                (RippleSim.useFrame strength N (simEnabled ph) s))
      /\ uHasRipple (refresh u dt lv scene
                       (exposedTexture
                          (RippleSim.useFrame strength N (simEnabled ph) s)))
         = 1).
Proof.
  split; [|split].
  - destruct ph; cbn; split; intros H; auto; try discriminate;
      destruct H; discriminate.
  - intros H. rewrite H.
    assert (He : exposedTexture (RippleSim.useFrame strength N false s) = None)
      by reflexivity.
    rewrite He. split; [reflexivity|]. split; [reflexivity|].
    assert (Hf : uHasRipple (refresh u dt lv scene None) < 0.5)
      by (cbn; lra).
    destruct (no_ripple_gradient _ vUv Hf) as (_ & Hh & Hl). auto.
  - intros H. rewrite H. split; reflexivity.
Qed.

Lemma ripples_phase_witness :
  simEnabled draining = false
  /\ highlight (refresh stillWater 0.016 0.5 None
                  (exposedTexture
                     (RippleSim.useFrame 0.9 512 (simEnabled draining)
                        RippleSim.pond0)))
               (0.5, 0.5) = 0.
Proof.
  assert (H : simEnabled draining = false) by reflexivity.
  split; [exact H|].
  exact (proj2 (proj2 (proj2
           (proj1 (proj2 (ripples_follow_phase 0.9 512 draining
                            RippleSim.pond0 stillWater 0.016 0.5 None
                            (0.5, 0.5))) H)))).
Defined.

End WiringFacts.
